(** * tapshark: the event decoder loop and the stream correlator

    A shallow embedding of [pkg.RecvEvents] and [pkg.ProcessEvents] of
    adleong/tapshark, and the properties of the decoder and of the correlator
    that follow from the code; then of the code of [cmd] that fills the
    table from the records of the correlator ([stripPort], [pad],
    [fromPodTo], [latency] and the loop of [processTapEvents]).

    Go pointers to immutable protobuf messages are [option] values ([None]
    is nil); the map [outstandingRequests] is a [gmap] keyed by [streamID];
    channels are the lists of the values received from, or sent on, them.
    Each goroutine is modelled on its own: what it receives (the results of
    the reads of the byte stream, the cases its [select] takes) is the input,
    and a send is an append to the list of values sent, so the time a
    goroutine spends blocked in a send or a receive is not part of the
    model. *)

From Stdlib Require Import Ascii.
From stdpp Require Import gmap strings list fin_maps pretty sorting.

Local Open Scope string_scope.
Local Open Scope list_scope.

(** ** The tap API messages (github.com/linkerd/linkerd2/viz/tap/gen/tap)

    The generated protobuf types the package reads, with the fields the
    repository uses. Every getter is nil-safe, as the generated Go getters
    are: on a nil receiver it returns the zero value. *)
Module tapPb.

Inductive IPAddress :=
| IPAddress_Ipv4 (ipv4 : N)
| IPAddress_Ipv6 (first last : N).

Record TcpAddress := { Ip : option IPAddress; Port : N }.

Record TapEvent_EndpointMeta := { Labels : gmap string string }.

Inductive TapEvent_ProxyDirection := UNKNOWN | INBOUND | OUTBOUND.

Record Duration := { Seconds : Z; Nanos : Z }.

(** [Stream] is the uint64 sequence number of the exchange. *)
Record TapEvent_Http_StreamId := { Base : N; Stream : N }.

Record TapEvent_Http_RequestInit := {
  RequestInit_Id : option TapEvent_Http_StreamId;
  Method : string;
  Scheme : string;
  Authority : string;
  Path : string;
  RequestInit_Headers : list (string * string)
}.

Record TapEvent_Http_ResponseInit := {
  ResponseInit_Id : option TapEvent_Http_StreamId;
  ResponseInit_SinceRequestInit : option Duration;
  HttpStatus : N;
  ResponseInit_Headers : list (string * string)
}.

Record TapEvent_Http_ResponseEnd := {
  ResponseEnd_Id : option TapEvent_Http_StreamId;
  SinceRequestInit : option Duration;
  SinceResponseInit : option Duration;
  ResponseBytes : N;
  Trailers : list (string * string)
}.

(** The oneof [TapEvent_Http.Event]: one wrapper type per payload. *)
Inductive isTapEvent_Http_Event :=
| TapEvent_Http_RequestInit_ (RequestInit : option TapEvent_Http_RequestInit)
| TapEvent_Http_ResponseInit_ (ResponseInit : option TapEvent_Http_ResponseInit)
| TapEvent_Http_ResponseEnd_ (ResponseEnd : option TapEvent_Http_ResponseEnd).

Record TapEvent_Http := { Http_Event : option isTapEvent_Http_Event }.

Record TapEvent := {
  Source : option TcpAddress;
  SourceMeta : option TapEvent_EndpointMeta;
  Destination : option TcpAddress;
  DestinationMeta : option TapEvent_EndpointMeta;
  ProxyDirection : TapEvent_ProxyDirection;
  Http : option TapEvent_Http
}.

Definition GetSource (x : option TapEvent) : option TcpAddress :=
  match x with Some e => Source e | None => None end.

Definition GetDestination (x : option TapEvent) : option TcpAddress :=
  match x with Some e => Destination e | None => None end.

Definition GetHttp (x : option TapEvent) : option TapEvent_Http :=
  match x with Some e => Http e | None => None end.

Definition GetEvent (x : option TapEvent_Http) : option isTapEvent_Http_Event :=
  match x with Some h => Http_Event h | None => None end.

(** The three payloads each have a [GetId] method. *)
Class HasId (M : Type) := GetId : option M -> option TapEvent_Http_StreamId.

#[export] Instance RequestInit_HasId : HasId TapEvent_Http_RequestInit :=
  fun x => match x with Some m => RequestInit_Id m | None => None end.

#[export] Instance ResponseInit_HasId : HasId TapEvent_Http_ResponseInit :=
  fun x => match x with Some m => ResponseInit_Id m | None => None end.

#[export] Instance ResponseEnd_HasId : HasId TapEvent_Http_ResponseEnd :=
  fun x => match x with Some m => ResponseEnd_Id m | None => None end.

End tapPb.

Import tapPb.

(** ** Errors and strings *)

(** A Go [error] as the decoder loop looks at it: it is the sentinel
    [io.EOF] (compared by identity), or some other error with its message. *)
Inductive error :=
| io_EOF
| errors_New (text : string).

Definition Error (err : error) : string :=
  match err with
  | io_EOF => "EOF"
  | errors_New text => text
  end.

(** [strings.HasSuffix]:
    [len(s) >= len(suffix) && s[len(s)-len(suffix):] == suffix]. *)
Definition HasSuffix (s suffix : string) : bool :=
  (String.length suffix <=? String.length s)%nat
  && String.eqb
       (String.substring (String.length s - String.length suffix) (String.length suffix) s)
       suffix.

(** ** The package's types *)

Record Stream := {
  Event : option TapEvent;
  ReqInit : option TapEvent_Http_RequestInit;
  RspInit : option TapEvent_Http_ResponseInit;
  RspEnd : option TapEvent_Http_ResponseEnd;
  TimestampMs : N
}.

Record streamID := {
  src : string;
  dst : string;
  stream : N
}.

#[export] Instance streamID_eq_dec : EqDecision streamID.
Proof. solve_decision. Defined.

#[export] Instance streamID_countable : Countable streamID.
Proof.
  refine (inj_countable'
            (fun id => (src id, dst id, stream id))
            (fun t => {| src := t.1.1; dst := t.1.2; stream := t.2 |}) _).
  by intros [].
Defined.

(** [req.RspInit = v] and [req.RspEnd = v] on a copy of the struct. *)
Definition set_RspInit (req : Stream) (v : option TapEvent_Http_ResponseInit) : Stream :=
  {| Event := Event req; ReqInit := ReqInit req; RspInit := v;
     RspEnd := RspEnd req; TimestampMs := TimestampMs req |}.

Definition set_RspEnd (req : Stream) (v : option TapEvent_Http_ResponseEnd) : Stream :=
  {| Event := Event req; ReqInit := ReqInit req; RspInit := RspInit req;
     RspEnd := v; TimestampMs := TimestampMs req |}.

(** A line written by [log.Warnf(format, id)]. *)
Inductive log_entry := Warnf (format : string) (id : streamID).

(** ** RecvEvents *)

(** What one call of [protohttp.FromByteStreamToProtocolBuffers] on the
    reader gives: the decoded event, or an error. *)
Inductive decoded :=
| Decoded (event : TapEvent)
| Failed (err : error).

(** What the decoder loop has done when it stops, or when the reads known so
    far are used up: the events sent on [eventCh], the lines printed, the
    number of notifications sent on [closing], and whether it returned. *)
Record recv := {
  eventCh : list (option TapEvent);
  stdout : list string;
  closing : nat;
  returned : bool
}.

Section RecvEvents.

(** [pkg.ErrClosedResponseBody] of linkerd2's tap package. *)
Variable ErrClosedResponseBody : string.

(** The lines printed for a failed read. *)
Definition report (err : error) : list string :=
  match err with
  | io_EOF => ["Tap stream terminated"]
  | _ => if negb (HasSuffix (Error err) ErrClosedResponseBody)
         then [Error err] else []
  end.

(** The loop, over the results of the successive reads of the byte stream. *)
Fixpoint RecvEvents (tapByteStream : list decoded) : recv :=
  match tapByteStream with
  | [] => {| eventCh := []; stdout := []; closing := 0; returned := false |}
  | Failed err :: _ =>
      {| eventCh := []; stdout := report err; closing := 1; returned := true |}
  | Decoded event :: rest =>
      let r := RecvEvents rest in
      {| eventCh := Some event :: eventCh r; stdout := stdout r;
         closing := closing r; returned := returned r |}
  end.

End RecvEvents.

(** ** ProcessEvents *)

(** The case the [select] of one iteration takes. *)
Inductive selected :=
| case_done
| case_event (event : option TapEvent).

(** How a run of the loop over the cases known so far ends: waiting in the
    [select], returned, or stopped by a nil pointer dereference. *)
Inductive status := Waiting | Returned | Panicked.

(** The body of the [case event := <-eventCh] branch: the new map, the
    records sent on [requestCh] and the warnings logged; [None] is the panic
    of [GetId().Stream] on a nil [StreamId]. *)
Definition dispatched : Type :=
  option (gmap streamID Stream * list Stream * list log_entry).

Record run := {
  outstandingRequests : gmap streamID Stream;
  requestCh : list Stream;
  warnings : list log_entry;
  state : status
}.

Section ProcessEvents.

(** [addr.PublicAddressToString] of linkerd2. *)
Variable PublicAddressToString : option TcpAddress -> string.

Definition dispatch (outstanding : gmap streamID Stream) (event : option TapEvent)
  : dispatched :=
  let src := PublicAddressToString (GetSource event) in
  let dst := PublicAddressToString (GetDestination event) in
  match GetEvent (GetHttp event) with
  | Some (TapEvent_Http_RequestInit_ RequestInit) =>
      match GetId RequestInit with
      | None => None
      | Some sid =>
          let id := {| src := src; dst := dst; stream := tapPb.Stream sid |} in
          Some (<[id := {| Event := event; ReqInit := RequestInit;
                           RspInit := None; RspEnd := None;
                           TimestampMs := 0%N |}]> outstanding, [], [])
      end
  | Some (TapEvent_Http_ResponseInit_ ResponseInit) =>
      match GetId ResponseInit with
      | None => None
      | Some sid =>
          let id := {| src := src; dst := dst; stream := tapPb.Stream sid |} in
          match outstanding !! id with
          | Some req => Some (<[id := set_RspInit req ResponseInit]> outstanding, [], [])
          | None =>
              Some (outstanding, [], [Warnf "Got ResponseInit for unknown stream: %s" id])
          end
      end
  | Some (TapEvent_Http_ResponseEnd_ ResponseEnd) =>
      match GetId ResponseEnd with
      | None => None
      | Some sid =>
          let id := {| src := src; dst := dst; stream := tapPb.Stream sid |} in
          match outstanding !! id with
          | Some req => Some (outstanding, [set_RspEnd req ResponseEnd], [])
          | None =>
              Some (outstanding, [], [Warnf "Got ResponseEnd for unknown stream: %s" id])
          end
      end
  | None => Some (outstanding, [], [])
  end.

(** The [for { select { ... } }] loop from a given map. *)
Fixpoint loop (outstanding : gmap streamID Stream) (cases : list selected) : run :=
  match cases with
  | [] => {| outstandingRequests := outstanding; requestCh := [];
             warnings := []; state := Waiting |}
  | case_done :: _ =>
      {| outstandingRequests := outstanding; requestCh := [];
         warnings := []; state := Returned |}
  | case_event event :: rest =>
      match dispatch outstanding event with
      | None => {| outstandingRequests := outstanding; requestCh := [];
                   warnings := []; state := Panicked |}
      | Some (outstanding', sent, logged) =>
          let r := loop outstanding' rest in
          {| outstandingRequests := outstandingRequests r;
             requestCh := sent ++ requestCh r;
             warnings := logged ++ warnings r;
             state := state r |}
      end
  end.

Definition ProcessEvents (cases : list selected) : run := loop ∅ cases.

End ProcessEvents.

(** ** Vocabulary of the properties *)

Section Vocabulary.

Variable PublicAddressToString : option TcpAddress -> string.

Definition payload_id (ev : isTapEvent_Http_Event) : option TapEvent_Http_StreamId :=
  match ev with
  | TapEvent_Http_RequestInit_ RequestInit => GetId RequestInit
  | TapEvent_Http_ResponseInit_ ResponseInit => GetId ResponseInit
  | TapEvent_Http_ResponseEnd_ ResponseEnd => GetId ResponseEnd
  end.

(** The StreamIdentity of an event: its two addresses and the sequence
    number of its payload. Events without an HTTP payload, or whose payload
    has no [StreamId], have none. *)
Definition identity (event : option TapEvent) : option streamID :=
  match GetEvent (GetHttp event) with
  | Some ev =>
      match payload_id ev with
      | Some sid =>
          Some {| src := PublicAddressToString (GetSource event);
                  dst := PublicAddressToString (GetDestination event);
                  stream := tapPb.Stream sid |}
      | None => None
      end
  | None => None
  end.

(** The StreamIdentity a record was opened under: the addresses of its
    originating event and the sequence number of its [ReqInit]. *)
Definition record_id (req : Stream) : option streamID :=
  match GetId (ReqInit req) with
  | Some sid =>
      Some {| src := PublicAddressToString (GetSource (Event req));
              dst := PublicAddressToString (GetDestination (Event req));
              stream := tapPb.Stream sid |}
  | None => None
  end.

(** The event is a RequestInit of the given identity. *)
Definition opens (id : streamID) (event : option TapEvent) : bool :=
  match GetEvent (GetHttp event) with
  | Some (TapEvent_Http_RequestInit_ _) => bool_decide (identity event = Some id)
  | _ => false
  end.

(** The event has an HTTP payload without a [StreamId]. *)
Definition ill_formed (event : option TapEvent) : bool :=
  match GetEvent (GetHttp event) with
  | Some ev => match payload_id ev with Some _ => false | None => true end
  | None => false
  end.

(** The events a run takes from the event channel and handles: those
    selected before the first cancellation and before the first ill-formed
    event. *)
Fixpoint consumed (cases : list selected) : list (option TapEvent) :=
  match cases with
  | case_event event :: rest =>
      if ill_formed event then [] else event :: consumed rest
  | _ => []
  end.

(** The payload of a ResponseEnd event. *)
Definition ResponseEnd_of (event : option TapEvent) : option TapEvent_Http_ResponseEnd :=
  match GetEvent (GetHttp event) with
  | Some (TapEvent_Http_ResponseEnd_ ResponseEnd) => ResponseEnd
  | _ => None
  end.

(** The ResponseEnd events that arrive after a RequestInit of their
    identity, in arrival order; [seen] holds the events that arrived
    before, the latest first. *)
Fixpoint completions (seen events : list (option TapEvent)) : list (option TapEvent) :=
  match events with
  | [] => []
  | event :: rest =>
      match GetEvent (GetHttp event), identity event with
      | Some (TapEvent_Http_ResponseEnd_ _), Some id =>
          if existsb (opens id) seen then [event] else []
      | _, _ => []
      end ++ completions (event :: seen) rest
  end.

(** Every record of the map is stored under the identity it was opened
    under, and holds no ResponseEnd. *)
Definition keyed (outstanding : gmap streamID Stream) : Prop :=
  forall id req,
    outstanding !! id = Some req -> record_id req = Some id /\ RspEnd req = None.

(** The maps the correlator can hold. *)
Definition reachable (outstanding : gmap streamID Stream) : Prop :=
  exists cases,
    outstandingRequests (ProcessEvents PublicAddressToString cases) = outstanding.

End Vocabulary.

(** [l] is an interleaving of [l1] and [l2]: each keeps its own order. *)
Inductive interleaving {A : Type} : list A -> list A -> list A -> Prop :=
| interleaving_nil : interleaving [] [] []
| interleaving_left x l1 l2 l :
    interleaving l1 l2 l -> interleaving (x :: l1) l2 (x :: l)
| interleaving_right x l1 l2 l :
    interleaving l1 l2 l -> interleaving l1 (x :: l2) (x :: l).

(** ** Sample data *)

Module Sample.

(** A rendering of IPv4 addresses, [a.b.c.d:port], standing for
    [addr.PublicAddressToString]. *)
Definition show_addr (a : option TcpAddress) : string :=
  match a with
  | Some {| Ip := Some (IPAddress_Ipv4 ip); Port := port |} =>
      pretty (ip / 16777216 mod 256)%N +:+ "." +:+ pretty (ip / 65536 mod 256)%N
      +:+ "." +:+ pretty (ip / 256 mod 256)%N +:+ "." +:+ pretty (ip mod 256)%N
      +:+ ":" +:+ pretty port
  | _ => ""
  end.

Definition ErrClosedResponseBody : string := "http: read on closed response body".

Definition client : option TcpAddress :=
  Some {| Ip := Some (IPAddress_Ipv4 167772161); Port := 41000 |}.
Definition server : option TcpAddress :=
  Some {| Ip := Some (IPAddress_Ipv4 167772162); Port := 8080 |}.

Definition tap (ev : isTapEvent_Http_Event) : option TapEvent :=
  Some {| Source := client; SourceMeta := None;
          Destination := server; DestinationMeta := None;
          ProxyDirection := OUTBOUND;
          Http := Some {| Http_Event := Some ev |} |}.

Definition sid (n : N) : option TapEvent_Http_StreamId :=
  Some {| Base := 0; tapPb.Stream := n |}.

Definition request (n : N) (path : string) : option TapEvent_Http_RequestInit :=
  Some {| RequestInit_Id := sid n; Method := "GET"; Scheme := "HTTP";
          Authority := "web"; Path := path; RequestInit_Headers := [] |}.

Definition response (n : N) (code : N) : option TapEvent_Http_ResponseInit :=
  Some {| ResponseInit_Id := sid n; ResponseInit_SinceRequestInit := None;
          HttpStatus := code; ResponseInit_Headers := [] |}.

Definition finish (n : N) (bytes : N) : option TapEvent_Http_ResponseEnd :=
  Some {| ResponseEnd_Id := sid n; SinceRequestInit := None;
          SinceResponseInit := None; ResponseBytes := bytes; Trailers := [] |}.

Definition reqInit (n : N) (path : string) : option TapEvent :=
  tap (TapEvent_Http_RequestInit_ (request n path)).
Definition rspInit (n : N) (code : N) : option TapEvent :=
  tap (TapEvent_Http_ResponseInit_ (response n code)).
Definition rspEnd (n : N) (bytes : N) : option TapEvent :=
  tap (TapEvent_Http_ResponseEnd_ (finish n bytes)).

(** A RequestInit whose payload carries no [StreamId]. *)
Definition anonymous : option TapEvent :=
  tap (TapEvent_Http_RequestInit_
         (Some {| RequestInit_Id := None; Method := "GET"; Scheme := "HTTP";
                  Authority := "web"; Path := "/"; RequestInit_Headers := [] |})).

Definition key (n : N) : streamID :=
  {| src := "10.0.0.1:41000"; dst := "10.0.0.2:8080"; stream := n |}.

Definition opened (n : N) (path : string) : Stream :=
  {| Event := reqInit n path; ReqInit := request n path;
     RspInit := None; RspEnd := None; TimestampMs := 0 |}.

End Sample.

(** ** The table of the terminal UI ([cmd/tapshark.go]) *)

(** [strings.Split(s, sep)] for a separator of one byte: the pieces of [s]
    between the occurrences of [sep]; there is always at least one piece. *)
Fixpoint Split (s : string) (sep : Ascii.ascii) : list string :=
  match s with
  | EmptyString => [""]
  | String c rest =>
      if Ascii.eqb c sep then "" :: Split rest sep
      else match Split rest sep with
           | first :: others => String c first :: others
           | [] => [String c ""]
           end
  end.

(** [strings.Split(address, ":")[0]]; [None] is the panic of an index out
    of range. *)
Definition stripPort (address : string) : option string :=
  Split address ":"%char !! 0%nat.

(** [fmt.Sprintf(" %s ", s)]. *)
Definition pad (s : string) : string := " " +:+ s +:+ " ".

(** Nil-safe getters of the payloads, as the generated ones. *)
Definition GetPath (x : option TapEvent_Http_RequestInit) : string :=
  match x with Some m => Path m | None => "" end.

Definition GetHttpStatus (x : option TapEvent_Http_ResponseInit) : N :=
  match x with Some m => HttpStatus m | None => 0%N end.

Definition GetSinceRequestInit (x : option TapEvent_Http_ResponseEnd) : option Duration :=
  match x with Some m => SinceRequestInit m | None => None end.

(** [meta.Labels["pod"]]: a missing key reads as the empty string. *)
Definition pod_label (meta : TapEvent_EndpointMeta) : string :=
  default "" (Labels meta !! "pod").

(** [req.TimestampMs = v] on a copy of the struct. *)
Definition set_TimestampMs (req : Stream) (v : N) : Stream :=
  {| Event := Event req; ReqInit := ReqInit req; RspInit := RspInit req;
     RspEnd := RspEnd req; TimestampMs := v |}.

(** [uint64(delta.Milliseconds())]: an int64 read as a uint64. *)
Definition uint64_of_int64 (x : Z) : N := Z.to_N (x mod 2 ^ 64).

(** The case the [select] of [processTapEvents] takes: cancellation, or a
    record from [requestCh], with [time.Since(start).Milliseconds()] at that
    moment. *)
Inductive received :=
| recv_done
| recv_request (req : Stream) (delta : Z).

(** What a run of the loop of [processTapEvents] leaves: [el.events], the
    rows handed to [QueueUpdateDraw] (the row number and the eight cells),
    and how the run ends. *)
Record drawn := {
  events : list Stream;
  queued : list (nat * list string);
  ended : status
}.

Section Table.

Variable PublicAddressToString : option TcpAddress -> string.

(** [ptypes.Duration]: the duration in nanoseconds, [None] for an error. *)
Variable ptypes_Duration : option Duration -> option Z.

(** [time.Duration.String]. *)
Variable Duration_String : Z -> string.

(** [GetMethod().GetRegistered().String()] of a RequestInit. *)
Variable Registered_String : option TapEvent_Http_RequestInit -> string.

(** [fmt.Sprintf("%.3f", float64(ms)/1000.0)]. *)
Variable format_seconds : N -> string.

(** [None] is the nil pointer dereference of [req.Event.SourceMeta.Labels]
    or of [req.Event.DestinationMeta.Labels]. *)
Definition fromPodTo (req : Stream) : option (string * string * string) :=
  source ← stripPort (PublicAddressToString (GetSource (Event req)));
  event ← Event req;
  sourceMeta ← SourceMeta event;
  let source :=
    if decide (pod_label sourceMeta <> "") then pod_label sourceMeta else source in
  destination ← stripPort (PublicAddressToString (GetDestination (Event req)));
  destinationMeta ← DestinationMeta event;
  let destination :=
    if decide (pod_label destinationMeta <> "")
    then pod_label destinationMeta else destination in
  Some match ProxyDirection event with
       | INBOUND => (source, destination, "")
       | OUTBOUND => ("", source, destination)
       | UNKNOWN => ("", "", "")
       end.

Definition latency (req : Stream) : string :=
  match ptypes_Duration (GetSinceRequestInit (RspEnd req)) with
  | Some latency => Duration_String latency
  | None => ""
  end.

(** The eight cells of the row of a record, in the order of the headers
    TIME, FROM, POD, TO, VERB, PATH, STATUS, LATENCY. *)
Definition cells (req : Stream) : option (list string) :=
  let timestamp := format_seconds (TimestampMs req) in
  '(from, pod, to) ← fromPodTo req;
  let verb := Registered_String (ReqInit req) in
  let path := GetPath (ReqInit req) in
  let status := pretty (GetHttpStatus (RspInit req)) in
  let latency := latency req in
  Some [timestamp; pad from; pad pod; pad to; pad verb; pad path; pad status; latency].

(** The [for { select { ... } }] loop of [processTapEvents], from the log
    [el.events] it has. *)
Fixpoint processTapEvents (log : list Stream) (cases : list received) : drawn :=
  match cases with
  | [] => {| events := log; queued := []; ended := Waiting |}
  | recv_done :: _ => {| events := log; queued := []; ended := Returned |}
  | recv_request req delta :: rest =>
      let req := set_TimestampMs req (uint64_of_int64 delta) in
      let log := log ++ [req] in
      let row := length log in
      match cells req with
      | None => {| events := log; queued := []; ended := Panicked |}
      | Some cs =>
          let r := processTapEvents log rest in
          {| events := events r; queued := (row, cs) :: queued r; ended := ended r |}
      end
  end.

End Table.

(** ** Vocabulary of the further properties *)

Definition is_RequestInit (event : option TapEvent) : bool :=
  match GetEvent (GetHttp event) with
  | Some (TapEvent_Http_RequestInit_ _) => true
  | _ => false
  end.

Definition is_ResponseEnd (event : option TapEvent) : bool :=
  match GetEvent (GetHttp event) with
  | Some (TapEvent_Http_ResponseEnd_ _) => true
  | _ => false
  end.

(** The case is a cancellation, or an event with an HTTP payload. *)
Definition has_payload (c : selected) : bool :=
  match c with
  | case_done => true
  | case_event event =>
      match GetEvent (GetHttp event) with Some _ => true | None => false end
  end.

(** The warning is the one of a ResponseEnd of an unknown stream. *)
Definition unknown_ResponseEnd (w : log_entry) : bool :=
  match w with
  | Warnf format _ => String.eqb format "Got ResponseEnd for unknown stream: %s"
  end.

(** The event of the case, if any, carries the metadata of both endpoints. *)
Definition has_metadata (c : selected) : Prop :=
  match c with
  | case_event (Some e) => is_Some (SourceMeta e) /\ is_Some (DestinationMeta e)
  | _ => True
  end.

(** The record of the case, if any, is one of [sent]. *)
Definition takes_from (sent : list Stream) (c : received) : Prop :=
  match c with
  | recv_request req _ => req ∈ sent
  | recv_done => True
  end.

(** The elapsed times of the records received. *)
Definition elapsed (cases : list received) : list Z :=
  omap (fun c => match c with recv_request _ delta => Some delta | recv_done => None end)
       cases.

Section Provenance.

Variable PublicAddressToString : option TcpAddress -> string.

(** The record is put together from events of [seen] that have the identity
    [id]: its [Event] is a RequestInit of [seen] with payload [ReqInit], and
    its [RspInit] is nil or the payload of a ResponseInit of [seen]; the
    correlator has not touched [TimestampMs]. *)
Definition assembled_from (seen : list (option TapEvent)) (id : streamID) (r : Stream)
  : Prop :=
  Event r ∈ seen
  /\ GetEvent (GetHttp (Event r)) = Some (TapEvent_Http_RequestInit_ (ReqInit r))
  /\ identity PublicAddressToString (Event r) = Some id
  /\ (RspInit r = None
      \/ exists ev, ev ∈ seen
           /\ GetEvent (GetHttp ev) = Some (TapEvent_Http_ResponseInit_ (RspInit r))
           /\ identity PublicAddressToString ev = Some id)
  /\ TimestampMs r = 0%N.

(** The record is assembled from events of [seen] of one identity, and its
    [RspEnd] is the payload of a ResponseEnd of [seen] of that identity. *)
Definition completed_from (seen : list (option TapEvent)) (r : Stream) : Prop :=
  exists id,
    assembled_from seen id r
    /\ exists ev, ev ∈ seen
         /\ GetEvent (GetHttp ev) = Some (TapEvent_Http_ResponseEnd_ (RspEnd r))
         /\ identity PublicAddressToString ev = Some id.

End Provenance.

(** ** Sample rows *)

Module Rows.

Import Sample.

(** Stand-ins for [ptypes.Duration], [time.Duration.String], the name of
    the registered method and the rendering of the timestamp. *)
Definition nanoseconds (d : option Duration) : option Z :=
  match d with
  | Some d => Some (Seconds d * 1000000000 + Nanos d)%Z
  | None => None
  end.

Definition show_ns (d : Z) : string := pretty d +:+ "ns".

Definition method_name (r : option TapEvent_Http_RequestInit) : string :=
  match r with Some m => Method m | None => "GET" end.

Definition show_ms (ms : N) : string :=
  pretty (ms / 1000)%N +:+ "." +:+ pretty (ms mod 1000)%N.

Definition pod (name : string) : option TapEvent_EndpointMeta :=
  Some {| Labels := {[ "pod" := name ]} |}.

Definition unlabelled : option TapEvent_EndpointMeta := Some {| Labels := ∅ |}.

(** An event seen on the outbound side of the pod [web-0]. *)
Definition outbound (ev : isTapEvent_Http_Event) : TapEvent :=
  {| Source := client; SourceMeta := pod "web-0";
     Destination := server; DestinationMeta := unlabelled;
     ProxyDirection := OUTBOUND;
     Http := Some {| Http_Event := Some ev |} |}.

Definition get : TapEvent := outbound (TapEvent_Http_RequestInit_ (request 1 "/foo")).
Definition ok : TapEvent := outbound (TapEvent_Http_ResponseInit_ (response 1 200)).
Definition moved : TapEvent := outbound (TapEvent_Http_ResponseInit_ (response 1 301)).
Definition fin : TapEvent := outbound (TapEvent_Http_ResponseEnd_ (finish 1 0)).

Definition served : Stream :=
  {| Event := Some get; ReqInit := request 1 "/foo"; RspInit := response 1 200;
     RspEnd := finish 1 0; TimestampMs := 0 |}.

(** The cells of [served], received after [ms] milliseconds. *)
Definition row (ms : N) : list string :=
  default [] (cells show_addr nanoseconds show_ns method_name show_ms
                (set_TimestampMs served ms)).

End Rows.

(** * Properties *)

(** ** Interleavings *)

Section Interleaving.

Context {A : Type}.

Lemma interleaving_app (s l1 l2 l : list A) :
  interleaving l1 l2 l ->
  interleaving (s ++ l1) l2 (s ++ l) /\ interleaving l1 (s ++ l2) (s ++ l).
Proof.
  intros H. induction s as [|x s [IH1 IH2]]; [done|].
  split; simpl; by constructor.
Qed.

Lemma interleaving_sym (l1 l2 l : list A) :
  interleaving l1 l2 l -> interleaving l2 l1 l.
Proof. induction 1; by constructor. Qed.

Lemma interleaving_filter (P : A -> Prop) `{!forall x, Decision (P x)}
    (l1 l2 l : list A) :
  interleaving l1 l2 l ->
  Forall P l1 ->
  Forall (fun x => ~ P x) l2 ->
  filter P l = l1.
Proof.
  induction 1 as [|x l1 l2 l _ IH|x l1 l2 l _ IH]; intros H1 H2; [done|..].
  - apply Forall_cons in H1 as [Hx H1].
    rewrite filter_cons_True by done. by rewrite IH.
  - apply Forall_cons in H2 as [Hx H2].
    rewrite filter_cons_False by done. by apply IH.
Qed.

End Interleaving.

(** ** The decoder loop *)

Section Decoder.

Variable ErrClosedResponseBody : string.

Local Abbreviation RecvEvents := (RecvEvents ErrClosedResponseBody).

(** The reads are all successful, or there is a first failed one. *)
Lemma reads_split (tapByteStream : list decoded) :
  (exists events, tapByteStream = Decoded <$> events)
  \/ (exists events err rest, tapByteStream = (Decoded <$> events) ++ Failed err :: rest).
Proof.
  induction tapByteStream as [|[event|err] rest IH].
  - left. by exists [].
  - destruct IH as [[events ->]|(events & err & rest' & ->)].
    + left. by exists (event :: events).
    + right. by exists (event :: events), err, rest'.
  - right. by exists [], err, rest.
Qed.

Lemma RecvEvents_decoded events rest :
  RecvEvents ((Decoded <$> events) ++ rest)
  = let r := RecvEvents rest in
    {| eventCh := (Some <$> events) ++ eventCh r; stdout := stdout r;
       closing := closing r; returned := returned r |}.
Proof.
  induction events as [|event events IH].
  - simpl. by destruct (RecvEvents rest).
  - change (RecvEvents ((Decoded <$> event :: events) ++ rest))
      with (let r := RecvEvents ((Decoded <$> events) ++ rest) in
            {| eventCh := Some event :: eventCh r; stdout := stdout r;
               closing := closing r; returned := returned r |}).
    by rewrite IH.
Qed.

(** C7. The decoder loop stops only at a failed read. If the reads known
    so far all succeed, every decoded event is on the event channel, in
    order, nothing is printed, nothing is sent on the closing signal and
    the loop has not returned. At the first failed read the events decoded
    before it are on the event channel, exactly one notification is sent on
    the closing signal and the loop returns, whatever follows on the
    stream; [io.EOF] prints the normal termination notice, another error
    whose message ends with [ErrClosedResponseBody] prints nothing, and
    every other error prints its message. *)
Theorem RecvEvents_stops_at_first_failure (tapByteStream : list decoded) :
  (exists events,
      tapByteStream = Decoded <$> events
      /\ RecvEvents tapByteStream
         = {| eventCh := Some <$> events; stdout := [];
              closing := 0; returned := false |})
  \/ (exists events err rest,
         tapByteStream = (Decoded <$> events) ++ Failed err :: rest
         /\ eventCh (RecvEvents tapByteStream) = Some <$> events
         /\ closing (RecvEvents tapByteStream) = 1
         /\ returned (RecvEvents tapByteStream) = true
         /\ ((err = io_EOF
              /\ stdout (RecvEvents tapByteStream) = ["Tap stream terminated"])
             \/ (err <> io_EOF
                 /\ HasSuffix (Error err) ErrClosedResponseBody = true
                 /\ stdout (RecvEvents tapByteStream) = [])
             \/ (err <> io_EOF
                 /\ HasSuffix (Error err) ErrClosedResponseBody = false
                 /\ stdout (RecvEvents tapByteStream) = [Error err]))).
Proof.
  destruct (reads_split tapByteStream)
    as [[events ->]|(events & err & rest & ->)].
  - left. exists events. split; [done|].
    rewrite <- (app_nil_r (Decoded <$> events)), RecvEvents_decoded.
    simpl. by rewrite !app_nil_r.
  - right. exists events, err, rest. rewrite RecvEvents_decoded. simpl.
    rewrite app_nil_r. repeat split; try done.
    destruct err as [|text]; [by left|right]. simpl.
    destruct (HasSuffix text ErrClosedResponseBody); [left|right]; done.
Qed.

End Decoder.

(** ** The correlator *)

Section Correlator.

Variable PublicAddressToString : option TcpAddress -> string.

Local Abbreviation dispatch := (dispatch PublicAddressToString).
Local Abbreviation loop := (loop PublicAddressToString).
Local Abbreviation ProcessEvents := (ProcessEvents PublicAddressToString).
Local Abbreviation identity := (identity PublicAddressToString).
Local Abbreviation record_id := (record_id PublicAddressToString).
Local Abbreviation opens := (opens PublicAddressToString).
Local Abbreviation completions := (completions PublicAddressToString).
Local Abbreviation reachable := (reachable PublicAddressToString).
Local Abbreviation keyed := (keyed PublicAddressToString).

(** *** What [dispatch] does, by payload *)

Lemma dispatch_RequestInit st event ri id :
  GetEvent (GetHttp event) = Some (TapEvent_Http_RequestInit_ ri) ->
  identity event = Some id ->
  dispatch st event
  = Some (<[id := {| Event := event; ReqInit := ri; RspInit := None;
                     RspEnd := None; TimestampMs := 0 |}]> st, [], []).
Proof.
  unfold identity, dispatch. intros ->. simpl.
  destruct (GetId ri); [|done]. by intros [= <-].
Qed.

Lemma dispatch_ResponseInit st event rsi id :
  GetEvent (GetHttp event) = Some (TapEvent_Http_ResponseInit_ rsi) ->
  identity event = Some id ->
  dispatch st event
  = match st !! id with
    | Some req => Some (<[id := set_RspInit req rsi]> st, [], [])
    | None => Some (st, [], [Warnf "Got ResponseInit for unknown stream: %s" id])
    end.
Proof.
  unfold identity, dispatch. intros ->. simpl.
  destruct (GetId rsi); [|done]. by intros [= <-].
Qed.

Lemma dispatch_ResponseEnd st event re id :
  GetEvent (GetHttp event) = Some (TapEvent_Http_ResponseEnd_ re) ->
  identity event = Some id ->
  dispatch st event
  = match st !! id with
    | Some req => Some (st, [set_RspEnd req re], [])
    | None => Some (st, [], [Warnf "Got ResponseEnd for unknown stream: %s" id])
    end.
Proof.
  unfold identity, dispatch. intros ->. simpl.
  destruct (GetId re); [|done]. by intros [= <-].
Qed.

Lemma dispatch_no_payload st event :
  GetEvent (GetHttp event) = None -> dispatch st event = Some (st, [], []).
Proof. unfold dispatch. by intros ->. Qed.

Lemma dispatch_ill_formed st event :
  ill_formed event = true -> dispatch st event = None.
Proof.
  unfold ill_formed, dispatch.
  destruct (GetEvent (GetHttp event)) as [[ri|rsi|re]|]; simpl; [..|done].
  - by destruct (GetId ri).
  - by destruct (GetId rsi).
  - by destruct (GetId re).
Qed.

Lemma ill_formed_identity event ev :
  GetEvent (GetHttp event) = Some ev ->
  ill_formed event = false -> is_Some (identity event).
Proof.
  unfold ill_formed, identity. intros ->.
  destruct (payload_id ev); [eauto|done].
Qed.

(** *** The loop *)

Lemma loop_event st event st' sent logged rest :
  dispatch st event = Some (st', sent, logged) ->
  loop st (case_event event :: rest)
  = let r := loop st' rest in
    {| outstandingRequests := outstandingRequests r;
       requestCh := sent ++ requestCh r;
       warnings := logged ++ warnings r;
       state := state r |}.
Proof.
  intros H.
  change (loop st (case_event event :: rest))
    with (match dispatch st event with
          | None => {| outstandingRequests := st; requestCh := [];
                       warnings := []; state := Panicked |}
          | Some (st', sent, logged) =>
              let r := loop st' rest in
              {| outstandingRequests := outstandingRequests r;
                 requestCh := sent ++ requestCh r;
                 warnings := logged ++ warnings r;
                 state := state r |}
          end).
  by rewrite H.
Qed.

Lemma loop_panic st event rest :
  dispatch st event = None ->
  loop st (case_event event :: rest)
  = {| outstandingRequests := st; requestCh := [];
       warnings := []; state := Panicked |}.
Proof.
  intros H.
  change (loop st (case_event event :: rest))
    with (match dispatch st event with
          | None => {| outstandingRequests := st; requestCh := [];
                       warnings := []; state := Panicked |}
          | Some (st', sent, logged) =>
              let r := loop st' rest in
              {| outstandingRequests := outstandingRequests r;
                 requestCh := sent ++ requestCh r;
                 warnings := logged ++ warnings r;
                 state := state r |}
          end).
  by rewrite H.
Qed.

Lemma loop_done st rest :
  loop st (case_done :: rest)
  = {| outstandingRequests := st; requestCh := [];
       warnings := []; state := Returned |}.
Proof. reflexivity. Qed.

Lemma loop_nil st :
  loop st []
  = {| outstandingRequests := st; requestCh := [];
       warnings := []; state := Waiting |}.
Proof. reflexivity. Qed.

(** A run that is not waiting in the [select] takes no further case. *)
Lemma loop_stopped st cases more :
  state (loop st cases) <> Waiting ->
  loop st (cases ++ more) = loop st cases.
Proof.
  revert st. induction cases as [|[|event] cases IH]; intros st; [done..|].
  rewrite <- app_comm_cons.
  destruct (dispatch st event) as [[[st' sent] logged]|] eqn:Hd.
  - rewrite !(loop_event _ _ _ _ _ _ Hd). simpl. intros Hs. by rewrite IH.
  - by rewrite !(loop_panic _ _ _ Hd).
Qed.

Lemma loop_waiting st cases more :
  state (loop st cases) = Waiting ->
  loop st (cases ++ more)
  = let r := loop st cases in
    let r' := loop (outstandingRequests r) more in
    {| outstandingRequests := outstandingRequests r';
       requestCh := requestCh r ++ requestCh r';
       warnings := warnings r ++ warnings r';
       state := state r' |}.
Proof.
  revert st. induction cases as [|[|event] cases IH]; intros st.
  - intros _. rewrite loop_nil. simpl. by destruct (loop st more).
  - done.
  - rewrite <- app_comm_cons.
    destruct (dispatch st event) as [[[st' sent] logged]|] eqn:Hd.
    + rewrite !(loop_event _ _ _ _ _ _ Hd). simpl.
      intros Hs. rewrite IH by done. simpl. by rewrite <- !app_assoc.
    + by rewrite !(loop_panic _ _ _ Hd).
Qed.

(** *** The map between two events *)

Lemma identity_None_dispatch st event ev :
  GetEvent (GetHttp event) = Some ev ->
  identity event = None -> dispatch st event = None.
Proof.
  intros H I. apply dispatch_ill_formed. unfold ill_formed, identity in *.
  rewrite H in *. by destruct (payload_id ev).
Qed.

Lemma record_id_RequestInit event ri :
  GetEvent (GetHttp event) = Some (TapEvent_Http_RequestInit_ ri) ->
  record_id {| Event := event; ReqInit := ri; RspInit := None;
               RspEnd := None; TimestampMs := 0 |}
  = identity event.
Proof. unfold identity, record_id. by intros ->. Qed.

(** One event keeps the map keyed; a record it sends is the one of the
    event's identity, with the event's ResponseEnd attached. *)
Lemma dispatch_keyed st event st' sent logged :
  keyed st ->
  dispatch st event = Some (st', sent, logged) ->
  keyed st'
  /\ Forall (fun r => record_id r = identity event
                      /\ RspEnd r = ResponseEnd_of event) sent.
Proof.
  intros K D.
  destruct (GetEvent (GetHttp event)) as [ev|] eqn:H.
  2:{ rewrite (dispatch_no_payload _ _ H) in D. by simplify_eq. }
  destruct (identity event) as [id|] eqn:I.
  2:{ by rewrite (identity_None_dispatch _ _ _ H I) in D. }
  destruct ev as [ri|rsi|re].
  - rewrite (dispatch_RequestInit _ _ _ _ H I) in D. simplify_eq.
    split; [|done]. intros k req.
    destruct (decide (id = k)) as [->|Hne].
    + rewrite lookup_insert_eq. intros [= <-].
      by rewrite (record_id_RequestInit _ _ H).
    + rewrite lookup_insert_ne by done. apply K.
  - rewrite (dispatch_ResponseInit _ _ _ _ H I) in D.
    destruct (st !! id) as [req|] eqn:Hst; simplify_eq; [|done].
    split; [|done]. intros k req'.
    destruct (decide (id = k)) as [->|Hne].
    + rewrite lookup_insert_eq. intros [= <-]. exact (K _ _ Hst).
    + rewrite lookup_insert_ne by done. apply K.
  - rewrite (dispatch_ResponseEnd _ _ _ _ H I) in D.
    destruct (st !! id) as [req|] eqn:Hst; simplify_eq; [|done].
    split; [done|]. constructor; [|done].
    unfold ResponseEnd_of. rewrite H. split; [|done].
    exact (proj1 (K _ _ Hst)).
Qed.

Lemma keyed_empty : keyed ∅.
Proof. intros id req. by rewrite lookup_empty. Qed.

Lemma loop_keyed st cases :
  keyed st -> keyed (outstandingRequests (loop st cases)).
Proof.
  revert st. induction cases as [|[|event] cases IH]; intros st K; [done..|].
  destruct (dispatch st event) as [[[st' sent] logged]|] eqn:D.
  - rewrite (loop_event _ _ _ _ _ _ D). simpl.
    apply IH. by apply (dispatch_keyed _ _ _ _ _ K D).
  - by rewrite (loop_panic _ _ _ D).
Qed.

Lemma reachable_keyed st : reachable st -> keyed st.
Proof. intros [cases <-]. apply loop_keyed, keyed_empty. Qed.

(** The identities in the map are those of the RequestInit events seen. *)
Lemma dispatch_opened st seen event st' sent logged :
  (forall id, is_Some (st !! id) <-> existsb (opens id) seen = true) ->
  dispatch st event = Some (st', sent, logged) ->
  forall id, is_Some (st' !! id) <-> existsb (opens id) (event :: seen) = true.
Proof.
  intros T D k. simpl. rewrite orb_true_iff, <- T. clear T.
  destruct (GetEvent (GetHttp event)) as [ev|] eqn:H.
  2:{ rewrite (dispatch_no_payload _ _ H) in D. simplify_eq.
      unfold opens. rewrite H. intuition congruence. }
  destruct (identity event) as [id|] eqn:I.
  2:{ by rewrite (identity_None_dispatch _ _ _ H I) in D. }
  unfold opens. rewrite H, I.
  destruct ev as [ri|rsi|re].
  - rewrite (dispatch_RequestInit _ _ _ _ H I) in D. simplify_eq.
    rewrite bool_decide_eq_true.
    destruct (decide (id = k)) as [->|Hne].
    + rewrite lookup_insert_eq. split; [by left|eauto].
    + rewrite lookup_insert_ne by done. intuition congruence.
  - rewrite (dispatch_ResponseInit _ _ _ _ H I) in D.
    destruct (st !! id) as [req|] eqn:Hst; simplify_eq; [|intuition congruence].
    destruct (decide (id = k)) as [->|Hne].
    + rewrite lookup_insert_eq, Hst. split; [right|]; eauto.
    + rewrite lookup_insert_ne by done. intuition congruence.
  - rewrite (dispatch_ResponseEnd _ _ _ _ H I) in D.
    destruct (st !! id) as [req|] eqn:Hst; simplify_eq; intuition congruence.
Qed.

(** What one handled event sends, read off the events seen before it. *)
Lemma dispatch_sent st seen event st' sent logged :
  keyed st ->
  (forall id, is_Some (st !! id) <-> existsb (opens id) seen = true) ->
  dispatch st event = Some (st', sent, logged) ->
  RspEnd <$> sent = ResponseEnd_of <$> completions seen [event]
  /\ record_id <$> sent = identity <$> completions seen [event].
Proof.
  intros K T D. simpl. rewrite app_nil_r.
  destruct (GetEvent (GetHttp event)) as [ev|] eqn:H.
  2:{ rewrite (dispatch_no_payload _ _ H) in D. by simplify_eq. }
  destruct (identity event) as [id|] eqn:I.
  2:{ by rewrite (identity_None_dispatch _ _ _ H I) in D. }
  destruct ev as [ri|rsi|re].
  - rewrite (dispatch_RequestInit _ _ _ _ H I) in D. by simplify_eq.
  - rewrite (dispatch_ResponseInit _ _ _ _ H I) in D.
    destruct (st !! id); by simplify_eq.
  - rewrite (dispatch_ResponseEnd _ _ _ _ H I) in D.
    destruct (st !! id) as [req|] eqn:Hst; simplify_eq.
    + assert (existsb (opens id) seen = true) as -> by (apply T; eauto).
      simpl. unfold ResponseEnd_of. rewrite H, I.
      by rewrite <- (proj1 (K _ _ Hst)).
    + destruct (existsb (opens id) seen) eqn:E; [|done].
      apply T in E. rewrite Hst in E. by destruct E.
Qed.

Lemma completions_cons seen event rest :
  completions seen (event :: rest)
  = completions seen [event] ++ completions (event :: seen) rest.
Proof. simpl. by rewrite app_nil_r. Qed.

Lemma loop_completions cases st seen :
  keyed st ->
  (forall id, is_Some (st !! id) <-> existsb (opens id) seen = true) ->
  RspEnd <$> requestCh (loop st cases)
  = ResponseEnd_of <$> completions seen (consumed cases)
  /\ record_id <$> requestCh (loop st cases)
     = identity <$> completions seen (consumed cases).
Proof.
  revert st seen.
  induction cases as [|[|event] cases IH]; intros st seen K T; [done..|].
  simpl consumed.
  destruct (dispatch st event) as [[[st' sent] logged]|] eqn:D.
  - assert (ill_formed event = false) as ->.
    { destruct (ill_formed event) eqn:E; [|done].
      by rewrite (dispatch_ill_formed _ _ E) in D. }
    rewrite (loop_event _ _ _ _ _ _ D), completions_cons. simpl requestCh.
    rewrite !fmap_app.
    destruct (dispatch_sent _ _ _ _ _ _ K T D) as [-> ->].
    destruct (IH st' (event :: seen)) as [-> ->]; [..|done].
    + by apply (dispatch_keyed _ _ _ _ _ K D).
    + by apply (dispatch_opened _ _ _ _ _ _ T D).
  - rewrite (loop_panic _ _ _ D).
    assert (ill_formed event = true) as ->; [|done].
    destruct (GetEvent (GetHttp event)) as [ev|] eqn:H.
    + unfold ill_formed. rewrite H.
      destruct (payload_id ev) as [sid|] eqn:P; [|done].
      destruct (ill_formed_identity event ev H) as [id I].
      { unfold ill_formed. by rewrite H, P. }
      destruct ev as [ri|rsi|re].
      * by rewrite (dispatch_RequestInit _ _ _ _ H I) in D.
      * rewrite (dispatch_ResponseInit _ _ _ _ H I) in D. by destruct (st !! id).
      * rewrite (dispatch_ResponseEnd _ _ _ _ H I) in D. by destruct (st !! id).
    + by rewrite (dispatch_no_payload _ _ H) in D.
Qed.

(** *** Two identities *)

(** What an event does depends on the map only through the entry of the
    event's identity, and changes only that entry. *)
Lemma dispatch_agree st1 st2 event id :
  identity event = Some id ->
  st1 !! id = st2 !! id ->
  exists st1' st2' sent logged,
    dispatch st1 event = Some (st1', sent, logged)
    /\ dispatch st2 event = Some (st2', sent, logged)
    /\ st1' !! id = st2' !! id
    /\ forall k, k <> id -> st1' !! k = st1 !! k /\ st2' !! k = st2 !! k.
Proof.
  intros I E.
  destruct (GetEvent (GetHttp event)) as [[ri|rsi|re]|] eqn:H.
  - rewrite (dispatch_RequestInit st1 _ _ _ H I), (dispatch_RequestInit st2 _ _ _ H I).
    do 4 eexists. repeat split; rewrite ?lookup_insert_eq; try done;
      by rewrite lookup_insert_ne.
  - rewrite (dispatch_ResponseInit st1 _ _ _ H I), (dispatch_ResponseInit st2 _ _ _ H I).
    rewrite <- E. destruct (st1 !! id) as [req|] eqn:Hst.
    + do 4 eexists. repeat split; rewrite ?lookup_insert_eq; try done;
        by rewrite lookup_insert_ne.
    + do 4 eexists. repeat split; congruence.
  - rewrite (dispatch_ResponseEnd st1 _ _ _ H I), (dispatch_ResponseEnd st2 _ _ _ H I).
    rewrite <- E. destruct (st1 !! id) as [req|] eqn:Hst;
      do 4 eexists; repeat split; congruence.
  - unfold identity in I. by rewrite H in I.
Qed.

(** The records of a run over an interleaving of the events of two
    identities are an interleaving of the records of the two runs over the
    events of one identity each. *)
Lemma loop_interleaving a b la lb events :
  a <> b ->
  interleaving la lb events ->
  Forall (fun event => identity event = Some a) la ->
  Forall (fun event => identity event = Some b) lb ->
  forall sta stb st,
    st !! a = sta !! a ->
    st !! b = stb !! b ->
    interleaving (requestCh (loop sta (case_event <$> la)))
                 (requestCh (loop stb (case_event <$> lb)))
                 (requestCh (loop st (case_event <$> events))).
Proof.
  intros Hab. induction 1 as [|x la lb l _ IH|x la lb l _ IH];
    intros Ha Hb sta stb st Ea Eb.
  - constructor.
  - apply Forall_cons in Ha as [Ix Ha].
    destruct (dispatch_agree st sta x a Ix Ea)
      as (st' & sta' & sent & logged & D & Da & Ea' & Hk).
    rewrite !fmap_cons, (loop_event _ _ _ _ _ _ D), (loop_event _ _ _ _ _ _ Da).
    simpl. apply interleaving_app, IH; [done..|].
    rewrite <- Eb. by apply Hk.
  - apply Forall_cons in Hb as [Ix Hb].
    destruct (dispatch_agree st stb x b Ix Eb)
      as (st' & stb' & sent & logged & D & Db & Eb' & Hk).
    rewrite !fmap_cons, (loop_event _ _ _ _ _ _ D), (loop_event _ _ _ _ _ _ Db).
    simpl. apply interleaving_app, IH; [done..| |done].
    rewrite <- Ea. by apply Hk.
Qed.

(** A run over the events of one identity sends records of that identity. *)
Lemma loop_records_of a events st :
  keyed st ->
  Forall (fun event => identity event = Some a) events ->
  Forall (fun r => record_id r = Some a) (requestCh (loop st (case_event <$> events))).
Proof.
  revert st. induction events as [|event events IH]; intros st K Ha; [done|].
  apply Forall_cons in Ha as [I Ha]. rewrite fmap_cons.
  destruct (dispatch st event) as [[[st' sent] logged]|] eqn:D.
  - rewrite (loop_event _ _ _ _ _ _ D). simpl.
    destruct (dispatch_keyed _ _ _ _ _ K D) as [K' Hs].
    apply Forall_app. split; [|by apply IH].
    eapply Forall_impl; [exact Hs|]. intros r [Hr _]. congruence.
  - by rewrite (loop_panic _ _ _ D).
Qed.

(** *** One exchange *)

(** C1. A RequestInit, a ResponseInit and a ResponseEnd of one
    StreamIdentity, handled in this order from any map, put exactly one
    record on the output queue, and its [ReqInit], [RspInit] and [RspEnd]
    are the payloads of the three events. *)
Theorem exchange_emits_one_record st e1 e2 e3 ri rsi re id :
  GetEvent (GetHttp e1) = Some (TapEvent_Http_RequestInit_ ri) ->
  GetEvent (GetHttp e2) = Some (TapEvent_Http_ResponseInit_ rsi) ->
  GetEvent (GetHttp e3) = Some (TapEvent_Http_ResponseEnd_ re) ->
  identity e1 = Some id -> identity e2 = Some id -> identity e3 = Some id ->
  requestCh (loop st [case_event e1; case_event e2; case_event e3])
  = [{| Event := e1; ReqInit := ri; RspInit := rsi; RspEnd := re;
        TimestampMs := 0 |}]
  /\ warnings (loop st [case_event e1; case_event e2; case_event e3]) = []
  /\ state (loop st [case_event e1; case_event e2; case_event e3]) = Waiting.
Proof.
  intros H1 H2 H3 I1 I2 I3.
  rewrite (loop_event _ _ _ _ _ _ (dispatch_RequestInit st _ _ _ H1 I1)).
  pose proof (dispatch_ResponseInit
                (<[id := {| Event := e1; ReqInit := ri; RspInit := None;
                            RspEnd := None; TimestampMs := 0 |}]> st)
                _ _ _ H2 I2) as D2.
  rewrite lookup_insert_eq in D2.
  rewrite (loop_event _ _ _ _ _ _ D2), insert_insert_eq.
  pose proof (dispatch_ResponseEnd
                (<[id := set_RspInit
                           {| Event := e1; ReqInit := ri; RspInit := None;
                              RspEnd := None; TimestampMs := 0 |} rsi]> st)
                _ _ _ H3 I3) as D3.
  rewrite lookup_insert_eq in D3.
  by rewrite (loop_event _ _ _ _ _ _ D3).
Qed.

(** C10. A RequestInit followed by a ResponseEnd of the same identity,
    with no ResponseInit in between, puts one record on the output queue,
    and its [RspInit] is nil. *)
Theorem ResponseEnd_without_ResponseInit st e1 e3 ri re id :
  GetEvent (GetHttp e1) = Some (TapEvent_Http_RequestInit_ ri) ->
  GetEvent (GetHttp e3) = Some (TapEvent_Http_ResponseEnd_ re) ->
  identity e1 = Some id -> identity e3 = Some id ->
  requestCh (loop st [case_event e1; case_event e3])
  = [{| Event := e1; ReqInit := ri; RspInit := None; RspEnd := re;
        TimestampMs := 0 |}]
  /\ warnings (loop st [case_event e1; case_event e3]) = [].
Proof.
  intros H1 H3 I1 I3.
  rewrite (loop_event _ _ _ _ _ _ (dispatch_RequestInit st _ _ _ H1 I1)).
  pose proof (dispatch_ResponseEnd
                (<[id := {| Event := e1; ReqInit := ri; RspInit := None;
                            RspEnd := None; TimestampMs := 0 |}]> st)
                _ _ _ H3 I3) as D3.
  rewrite lookup_insert_eq in D3.
  by rewrite (loop_event _ _ _ _ _ _ D3).
Qed.

(** *** Anomalies *)

(** C4. A ResponseInit or a ResponseEnd whose identity is not in the map
    sends nothing, leaves the map as it is and logs one warning; the loop
    goes on with the cases that follow, from the same map. *)
Theorem unknown_stream_is_dropped st event id rest :
  (exists rsi, GetEvent (GetHttp event) = Some (TapEvent_Http_ResponseInit_ rsi))
  \/ (exists re, GetEvent (GetHttp event) = Some (TapEvent_Http_ResponseEnd_ re)) ->
  identity event = Some id ->
  st !! id = None ->
  exists warning,
    dispatch st event = Some (st, [], [warning])
    /\ loop st (case_event event :: rest)
       = {| outstandingRequests := outstandingRequests (loop st rest);
            requestCh := requestCh (loop st rest);
            warnings := warning :: warnings (loop st rest);
            state := state (loop st rest) |}.
Proof.
  intros [[rsi H]|[re H]] I Hst.
  - pose proof (dispatch_ResponseInit st _ _ _ H I) as D. rewrite Hst in D.
    eexists. split; [exact D|]. by rewrite (loop_event _ _ _ _ _ _ D).
  - pose proof (dispatch_ResponseEnd st _ _ _ H I) as D. rewrite Hst in D.
    eexists. split; [exact D|]. by rewrite (loop_event _ _ _ _ _ _ D).
Qed.

(** *** A new request under an open identity *)

(** C5. A RequestInit stores, under its identity, a record that holds the
    event and its payload and nothing else, whatever was stored there; and
    the run that follows (the records sent, the warnings, the final map) is
    the same whatever record [old] was stored under that identity before. *)
Theorem RequestInit_starts_afresh st event ri id :
  GetEvent (GetHttp event) = Some (TapEvent_Http_RequestInit_ ri) ->
  identity event = Some id ->
  dispatch st event
  = Some (<[id := {| Event := event; ReqInit := ri; RspInit := None;
                     RspEnd := None; TimestampMs := 0 |}]> st, [], [])
  /\ forall old rest,
      loop (<[id := old]> st) (case_event event :: rest)
      = loop st (case_event event :: rest).
Proof.
  intros H I. split; [by apply dispatch_RequestInit|].
  intros old rest.
  rewrite (loop_event _ _ _ _ _ _ (dispatch_RequestInit (<[id:=old]> st) _ _ _ H I)).
  rewrite (loop_event _ _ _ _ _ _ (dispatch_RequestInit st _ _ _ H I)).
  by rewrite insert_insert_eq.
Qed.

(** *** Cancellation *)

(** C8. When the [select] takes the cancellation case the loop returns at
    once: nothing is sent and the map is left as it is, whatever it holds
    and whatever cases would follow; so a run with a cancellation after
    [before] has sent what the run over [before] has sent, holds the same
    map, and is not waiting for events any more. *)
Theorem cancellation_returns_at_once st before rest :
  loop st (case_done :: rest)
  = {| outstandingRequests := st; requestCh := []; warnings := [];
       state := Returned |}
  /\ requestCh (loop st (before ++ case_done :: rest)) = requestCh (loop st before)
  /\ outstandingRequests (loop st (before ++ case_done :: rest))
     = outstandingRequests (loop st before)
  /\ state (loop st (before ++ case_done :: rest)) <> Waiting.
Proof.
  split; [done|].
  destruct (state (loop st before)) eqn:Hw.
  - rewrite (loop_waiting _ _ _ Hw). simpl. by rewrite app_nil_r.
  - rewrite loop_stopped; rewrite Hw; done.
  - rewrite loop_stopped; rewrite Hw; done.
Qed.

(** *** After the ResponseEnd *)

(** C9. A ResponseEnd of an identity in the map sends the stored record
    with the payload attached and leaves the map as it is, so the identity
    stays in it; a second ResponseEnd of the same identity sends a second
    record and logs no warning. *)
Theorem ResponseEnd_keeps_identity st e1 e2 re1 re2 id req :
  GetEvent (GetHttp e1) = Some (TapEvent_Http_ResponseEnd_ re1) ->
  GetEvent (GetHttp e2) = Some (TapEvent_Http_ResponseEnd_ re2) ->
  identity e1 = Some id -> identity e2 = Some id ->
  st !! id = Some req ->
  dispatch st e1 = Some (st, [set_RspEnd req re1], [])
  /\ requestCh (loop st [case_event e1; case_event e2])
     = [set_RspEnd req re1; set_RspEnd req re2]
  /\ warnings (loop st [case_event e1; case_event e2]) = []
  /\ outstandingRequests (loop st [case_event e1; case_event e2]) !! id = Some req.
Proof.
  intros H1 H2 I1 I2 Hst.
  pose proof (dispatch_ResponseEnd st _ _ _ H1 I1) as D1. rewrite Hst in D1.
  pose proof (dispatch_ResponseEnd st _ _ _ H2 I2) as D2. rewrite Hst in D2.
  split; [done|].
  by rewrite (loop_event _ _ _ _ _ _ D1), (loop_event _ _ _ _ _ _ D2).
Qed.

(** *** Order of the output *)

(** C3. The records on the output queue are, in this order, those of the
    ResponseEnd events that were handled after a RequestInit of their
    identity, in the order in which these ResponseEnd events arrived: the
    k-th record carries the payload of the k-th such ResponseEnd and is the
    record of that event's identity. The order of the RequestInit events
    plays no part. *)
Theorem records_in_ResponseEnd_order cases :
  RspEnd <$> requestCh (ProcessEvents cases)
  = ResponseEnd_of <$> completions [] (consumed cases)
  /\ record_id <$> requestCh (ProcessEvents cases)
     = identity <$> completions [] (consumed cases).
Proof.
  apply loop_completions; [apply keyed_empty|].
  intros id. rewrite lookup_empty. simpl. split; [by intros []|done].
Qed.

(** *** The live set *)

(** C2, as the code has it. In every map the correlator can hold, an
    identity has at most one record, the record stored under an identity is
    the one opened under it, and no stored record holds a ResponseEnd; a
    ResponseEnd of an identity in the map sends the stored record with the
    payload attached, logs nothing, and leaves the map as it is, so the
    identity is still in it afterwards. *)
Theorem ResponseEnd_emits_and_keeps_map st :
  reachable st ->
  (forall id r1 r2, st !! id = Some r1 -> st !! id = Some r2 -> r1 = r2)
  /\ keyed st
  /\ forall event re id req,
      GetEvent (GetHttp event) = Some (TapEvent_Http_ResponseEnd_ re) ->
      identity event = Some id ->
      st !! id = Some req ->
      dispatch st event = Some (st, [set_RspEnd req re], [])
      /\ forall rest,
          outstandingRequests (loop st [case_event event]) !! id = Some req
          /\ requestCh (loop st (case_event event :: rest))
             = set_RspEnd req re :: requestCh (loop st rest).
Proof.
  intros R. split; [congruence|]. split; [by apply reachable_keyed|].
  intros event re id req H I Hst.
  pose proof (dispatch_ResponseEnd st _ _ _ H I) as D. rewrite Hst in D.
  split; [done|]. intros rest.
  by rewrite !(loop_event _ _ _ _ _ _ D).
Qed.

(** *** Independence of two identities *)

(** C6. For two distinct identities and any interleaving of a sequence of
    events of the first with a sequence of events of the second, the
    records of each identity on the output queue are, in the same order,
    the records the correlator sends when it is given the events of that
    identity alone; and the output queue holds nothing else: it is an
    interleaving of the two separate outputs. *)
Theorem interleaved_identities_are_independent a b la lb events :
  a <> b ->
  Forall (fun event => identity event = Some a) la ->
  Forall (fun event => identity event = Some b) lb ->
  interleaving la lb events ->
  filter (fun r => record_id r = Some a)
         (requestCh (ProcessEvents (case_event <$> events)))
  = requestCh (ProcessEvents (case_event <$> la))
  /\ filter (fun r => record_id r = Some b)
            (requestCh (ProcessEvents (case_event <$> events)))
     = requestCh (ProcessEvents (case_event <$> lb))
  /\ interleaving (requestCh (ProcessEvents (case_event <$> la)))
                  (requestCh (ProcessEvents (case_event <$> lb)))
                  (requestCh (ProcessEvents (case_event <$> events))).
Proof.
  intros Hab Ha Hb Hi.
  pose proof (loop_interleaving a b la lb events Hab Hi Ha Hb ∅ ∅ ∅ eq_refl eq_refl)
    as Hout.
  pose proof (loop_records_of a la ∅ keyed_empty Ha) as Ra.
  pose proof (loop_records_of b lb ∅ keyed_empty Hb) as Rb.
  split; [|split; [|exact Hout]].
  - apply (interleaving_filter _ _ _ _ Hout Ra).
    eapply Forall_impl; [exact Rb|]. intros r Hr. congruence.
  - apply (interleaving_filter _ _ _ _ (interleaving_sym _ _ _ Hout) Rb).
    eapply Forall_impl; [exact Ra|]. intros r Hr. congruence.
Qed.

End Correlator.

(** ** The properties on sample runs *)

Module Runs.

Import Sample.

Local Abbreviation GET := (reqInit 1 "/foo").
Local Abbreviation OK := (rspInit 1 200).
Local Abbreviation END := (rspEnd 1 0).

Lemma exchange_emits_one_record_witness :
  (GetEvent (GetHttp GET) = Some (TapEvent_Http_RequestInit_ (request 1 "/foo"))
   /\ GetEvent (GetHttp OK) = Some (TapEvent_Http_ResponseInit_ (response 1 200))
   /\ GetEvent (GetHttp END) = Some (TapEvent_Http_ResponseEnd_ (finish 1 0))
   /\ identity show_addr GET = Some (key 1)
   /\ identity show_addr OK = Some (key 1)
   /\ identity show_addr END = Some (key 1))
  /\ requestCh (loop show_addr ∅ [case_event GET; case_event OK; case_event END])
     = [{| Event := GET; ReqInit := request 1 "/foo"; RspInit := response 1 200;
           RspEnd := finish 1 0; TimestampMs := 0 |}]
  /\ warnings (loop show_addr ∅ [case_event GET; case_event OK; case_event END]) = []
  /\ state (loop show_addr ∅ [case_event GET; case_event OK; case_event END]) = Waiting.
Proof.
  split; [repeat split; vm_compute; reflexivity|].
  apply (exchange_emits_one_record show_addr ∅ GET OK END
           (request 1 "/foo") (response 1 200) (finish 1 0) (key 1));
    vm_compute; reflexivity.
Defined.

Lemma ResponseEnd_without_ResponseInit_witness :
  (GetEvent (GetHttp GET) = Some (TapEvent_Http_RequestInit_ (request 1 "/foo"))
   /\ GetEvent (GetHttp END) = Some (TapEvent_Http_ResponseEnd_ (finish 1 0))
   /\ identity show_addr GET = Some (key 1)
   /\ identity show_addr END = Some (key 1))
  /\ requestCh (loop show_addr ∅ [case_event GET; case_event END])
     = [{| Event := GET; ReqInit := request 1 "/foo"; RspInit := None;
           RspEnd := finish 1 0; TimestampMs := 0 |}]
  /\ warnings (loop show_addr ∅ [case_event GET; case_event END]) = [].
Proof.
  split; [repeat split; vm_compute; reflexivity|].
  apply (ResponseEnd_without_ResponseInit show_addr ∅ GET END
           (request 1 "/foo") (finish 1 0) (key 1));
    vm_compute; reflexivity.
Defined.

Lemma unknown_stream_is_dropped_witness :
  (GetEvent (GetHttp (rspEnd 7 0)) = Some (TapEvent_Http_ResponseEnd_ (finish 7 0))
   /\ identity show_addr (rspEnd 7 0) = Some (key 7)
   /\ (∅ : gmap streamID Stream) !! key 7 = None)
  /\ exists warning,
      dispatch show_addr ∅ (rspEnd 7 0) = Some (∅, [], [warning])
      /\ loop show_addr ∅ [case_event (rspEnd 7 0); case_event GET]
         = {| outstandingRequests :=
                outstandingRequests (loop show_addr ∅ [case_event GET]);
              requestCh := requestCh (loop show_addr ∅ [case_event GET]);
              warnings := warning :: warnings (loop show_addr ∅ [case_event GET]);
              state := state (loop show_addr ∅ [case_event GET]) |}.
Proof.
  split; [repeat split; vm_compute; reflexivity|].
  apply (unknown_stream_is_dropped show_addr ∅ (rspEnd 7 0) (key 7) [case_event GET]).
  - right. exists (finish 7 0). reflexivity.
  - vm_compute. reflexivity.
  - reflexivity.
Defined.

Lemma RequestInit_starts_afresh_witness :
  (GetEvent (GetHttp GET) = Some (TapEvent_Http_RequestInit_ (request 1 "/foo"))
   /\ identity show_addr GET = Some (key 1))
  /\ dispatch show_addr {[ key 1 := set_RspInit (opened 1 "/old") (response 1 500) ]} GET
     = Some (<[key 1 := opened 1 "/foo"]>
               {[ key 1 := set_RspInit (opened 1 "/old") (response 1 500) ]}, [], [])
  /\ forall old rest,
      loop show_addr
        (<[key 1 := old]> {[ key 1 := set_RspInit (opened 1 "/old") (response 1 500) ]})
        (case_event GET :: rest)
      = loop show_addr {[ key 1 := set_RspInit (opened 1 "/old") (response 1 500) ]}
          (case_event GET :: rest).
Proof.
  split; [split; vm_compute; reflexivity|].
  apply (RequestInit_starts_afresh show_addr
           {[ key 1 := set_RspInit (opened 1 "/old") (response 1 500) ]}
           GET (request 1 "/foo") (key 1));
    vm_compute; reflexivity.
Defined.

Lemma ResponseEnd_keeps_identity_witness :
  (GetEvent (GetHttp END) = Some (TapEvent_Http_ResponseEnd_ (finish 1 0))
   /\ GetEvent (GetHttp (rspEnd 1 9)) = Some (TapEvent_Http_ResponseEnd_ (finish 1 9))
   /\ identity show_addr END = Some (key 1)
   /\ identity show_addr (rspEnd 1 9) = Some (key 1)
   /\ ({[ key 1 := opened 1 "/foo" ]} : gmap streamID Stream) !! key 1
      = Some (opened 1 "/foo"))
  /\ dispatch show_addr {[ key 1 := opened 1 "/foo" ]} END
     = Some ({[ key 1 := opened 1 "/foo" ]},
             [set_RspEnd (opened 1 "/foo") (finish 1 0)], [])
  /\ requestCh (loop show_addr {[ key 1 := opened 1 "/foo" ]}
                  [case_event END; case_event (rspEnd 1 9)])
     = [set_RspEnd (opened 1 "/foo") (finish 1 0);
        set_RspEnd (opened 1 "/foo") (finish 1 9)]
  /\ warnings (loop show_addr {[ key 1 := opened 1 "/foo" ]}
                 [case_event END; case_event (rspEnd 1 9)]) = []
  /\ outstandingRequests (loop show_addr {[ key 1 := opened 1 "/foo" ]}
                            [case_event END; case_event (rspEnd 1 9)]) !! key 1
     = Some (opened 1 "/foo").
Proof.
  split; [repeat split; vm_compute; reflexivity|].
  apply (ResponseEnd_keeps_identity show_addr {[ key 1 := opened 1 "/foo" ]}
           END (rspEnd 1 9) (finish 1 0) (finish 1 9) (key 1) (opened 1 "/foo"));
    vm_compute; reflexivity.
Defined.

(** The map after one RequestInit of identity 1. *)
Local Abbreviation one_open :=
  (outstandingRequests (ProcessEvents show_addr [case_event GET])).

Lemma ResponseEnd_emits_and_keeps_map_witness :
  reachable show_addr one_open
  /\ (forall id r1 r2, one_open !! id = Some r1 -> one_open !! id = Some r2 -> r1 = r2)
  /\ keyed show_addr one_open
  /\ forall event re id req,
      GetEvent (GetHttp event) = Some (TapEvent_Http_ResponseEnd_ re) ->
      identity show_addr event = Some id ->
      one_open !! id = Some req ->
      dispatch show_addr one_open event = Some (one_open, [set_RspEnd req re], [])
      /\ forall rest,
          outstandingRequests (loop show_addr one_open [case_event event]) !! id
          = Some req
          /\ requestCh (loop show_addr one_open (case_event event :: rest))
             = set_RspEnd req re :: requestCh (loop show_addr one_open rest).
Proof.
  assert (reachable show_addr one_open) as R.
  { exists [case_event GET]. reflexivity. }
  split; [exact R|].
  apply (ResponseEnd_emits_and_keeps_map show_addr one_open R).
Defined.

(** The identity is not removed at its ResponseEnd: after a RequestInit and
    a ResponseEnd of identity 1 the record is on the output queue, and
    identity 1 is still in the map. *)
Lemma ResponseEnd_does_not_remove_identity :
  requestCh (ProcessEvents show_addr [case_event GET; case_event END])
  = [set_RspEnd (opened 1 "/foo") (finish 1 0)]
  /\ ~ (outstandingRequests
          (ProcessEvents show_addr [case_event GET; case_event END]) !! key 1
        = None).
Proof.
  split; [vm_compute; reflexivity|].
  intros H. vm_compute in H. discriminate H.
Qed.

Local Abbreviation GET2 := (reqInit 2 "/bar").
Local Abbreviation OK2 := (rspInit 2 404).
Local Abbreviation END2 := (rspEnd 2 5).

Lemma interleaved_identities_are_independent_witness :
  (key 1 <> key 2
   /\ Forall (fun event => identity show_addr event = Some (key 1)) [GET; OK; END]
   /\ Forall (fun event => identity show_addr event = Some (key 2)) [GET2; OK2; END2]
   /\ interleaving [GET; OK; END] [GET2; OK2; END2] [GET; GET2; OK2; OK; END2; END])
  /\ filter (fun r => record_id show_addr r = Some (key 1))
       (requestCh (ProcessEvents show_addr
                     (case_event <$> [GET; GET2; OK2; OK; END2; END])))
     = requestCh (ProcessEvents show_addr (case_event <$> [GET; OK; END]))
  /\ filter (fun r => record_id show_addr r = Some (key 2))
       (requestCh (ProcessEvents show_addr
                     (case_event <$> [GET; GET2; OK2; OK; END2; END])))
     = requestCh (ProcessEvents show_addr (case_event <$> [GET2; OK2; END2]))
  /\ interleaving
       (requestCh (ProcessEvents show_addr (case_event <$> [GET; OK; END])))
       (requestCh (ProcessEvents show_addr (case_event <$> [GET2; OK2; END2])))
       (requestCh (ProcessEvents show_addr
                     (case_event <$> [GET; GET2; OK2; OK; END2; END]))).
Proof.
  assert (key 1 <> key 2) as Hne by discriminate.
  assert (Forall (fun event => identity show_addr event = Some (key 1)) [GET; OK; END])
    as H1 by (repeat constructor; vm_compute; reflexivity).
  assert (Forall (fun event => identity show_addr event = Some (key 2)) [GET2; OK2; END2])
    as H2 by (repeat constructor; vm_compute; reflexivity).
  assert (interleaving [GET; OK; END] [GET2; OK2; END2] [GET; GET2; OK2; OK; END2; END])
    as Hi.
  { apply interleaving_left, interleaving_right, interleaving_right,
      interleaving_left, interleaving_right, interleaving_left, interleaving_nil. }
  split; [done|].
  apply (interleaved_identities_are_independent show_addr (key 1) (key 2)
           [GET; OK; END] [GET2; OK2; END2] [GET; GET2; OK2; OK; END2; END]
           Hne H1 H2 Hi).
Defined.

(** Identity 1 starts first and identity 2 finishes first: the record of
    identity 2 is sent first. *)
Example finish_order :
  requestCh (ProcessEvents show_addr
               [case_event GET; case_event GET2; case_event END2; case_event END])
  = [set_RspEnd (opened 2 "/bar") (finish 2 5);
     set_RspEnd (opened 1 "/foo") (finish 1 0)].
Proof. vm_compute. reflexivity. Qed.

(** A RequestInit without a [StreamId] stops the loop; the cases after it
    are not handled. *)
Example anonymous_panics :
  state (ProcessEvents show_addr [case_event anonymous; case_event GET]) = Panicked
  /\ consumed [case_event GET; case_event anonymous; case_event END] = [GET].
Proof. split; vm_compute; reflexivity. Qed.

(** The three events of one exchange, then the end of the stream. *)
Example decode_then_EOF (e1 e2 e3 : TapEvent) :
  RecvEvents ErrClosedResponseBody [Decoded e1; Decoded e2; Decoded e3; Failed io_EOF]
  = {| eventCh := [Some e1; Some e2; Some e3];
       stdout := ["Tap stream terminated"]; closing := 1; returned := true |}.
Proof. reflexivity. Qed.

Example closed_body_is_silent :
  report ErrClosedResponseBody
    (errors_New "error reading byte stream header: http: read on closed response body")
  = []
  /\ report ErrClosedResponseBody (errors_New "unexpected EOF") = ["unexpected EOF"].
Proof. split; vm_compute; reflexivity. Qed.

End Runs.

(** * Further properties *)

(** ** Addresses without their port *)

Section StripPort.

Local Abbreviation colon := ":"%char.

Lemma Split_first s sep :
  exists first others,
    Split s sep = first :: others
    /\ ~ In sep (String.list_ascii_of_string first)
    /\ (others = [] /\ s = first
        \/ exists rest, s = first +:+ String sep rest /\ others = Split rest sep).
Proof.
  induction s as [|c s (first & others & E & Hn & Hs)]; simpl.
  - exists "", []. split; [done|]. split; [by intros []|]. by left.
  - destruct (Ascii.eqb_spec c sep) as [->|Hc].
    + exists "", (Split s sep). split; [done|]. split; [by intros []|].
      right. by exists s.
    + rewrite E. exists (String c first), others. split; [done|]. split.
      * simpl. intros [?|?]; [congruence|done].
      * destruct Hs as [[-> ->]|(rest & -> & ->)]; [by left|].
        right. by exists rest.
Qed.

(** The piece before the first separator is the same whatever follows it. *)
Lemma Split_cut host sep rest :
  ~ In sep (String.list_ascii_of_string host) ->
  Split (host +:+ String sep rest) sep = host :: Split rest sep.
Proof.
  induction host as [|c host IH]; simpl; intros Hn.
  - by rewrite Ascii.eqb_refl.
  - destruct (Ascii.eqb_spec c sep) as [->|Hc]; [by destruct Hn; left|].
    rewrite IH; [done|]. intros ?. apply Hn. by right.
Qed.

Lemma Split_whole host sep :
  ~ In sep (String.list_ascii_of_string host) -> Split host sep = [host].
Proof.
  induction host as [|c host IH]; simpl; intros Hn; [done|].
  destruct (Ascii.eqb_spec c sep) as [->|Hc]; [by destruct Hn; left|].
  rewrite IH; [done|]. intros ?. apply Hn. by right.
Qed.

Lemma stripPort_host address :
  exists host,
    stripPort address = Some host
    /\ ~ In colon (String.list_ascii_of_string host)
    /\ (address = host \/ exists rest, address = host +:+ String colon rest).
Proof.
  unfold stripPort.
  destruct (Split_first address colon) as (first & others & -> & Hn & Hs).
  exists first. split; [done|]. split; [done|].
  destruct Hs as [[_ ->]|(rest & -> & _)]; [by left|right; by exists rest].
Qed.

(** X1. [stripPort] never fails: it gives the part of the address before its
    first colon, which is the whole address when there is no colon. *)
Theorem stripPort_cuts_at_first_colon address :
  exists host,
    stripPort address = Some host
    /\ ~ In colon (String.list_ascii_of_string host)
    /\ (address = host \/ exists rest, address = host +:+ String colon rest).
Proof.
  unfold stripPort.
  destruct (Split_first address colon) as (first & others & -> & Hn & Hs).
  exists first. split; [done|]. split; [done|].
  destruct Hs as [[_ ->]|(rest & -> & _)]; [by left|right; by exists rest].
Qed.

(** X2. [stripPort] leaves an address as it is exactly when the address has no
    colon; so stripping twice is stripping once. *)
Theorem stripPort_fixed_iff_no_colon address :
  (stripPort address = Some address <-> ~ In colon (String.list_ascii_of_string address))
  /\ (mbind stripPort (stripPort address) = stripPort address).
Proof.
  destruct (stripPort_host address) as (host & E & Hn & Hs).
  split.
  - split.
    + rewrite E. by intros [= <-].
    + intros Hc. unfold stripPort. by rewrite Split_whole.
  - rewrite E. simpl. unfold stripPort. by rewrite Split_whole.
Qed.

End StripPort.

(** ** The errors the decoder keeps silent *)

Section Silent.

Lemma substring_whole s : String.substring 0 (String.length s) s = s.
Proof. induction s as [|c s IH]; simpl; [done|]. by rewrite IH. Qed.

Lemma substring_skip p n s :
  String.substring (String.length p) n (p +:+ s) = String.substring 0 n s.
Proof. induction p as [|c p IH]; simpl; [done|]. by rewrite IH. Qed.

Lemma length_app_string p s :
  String.length (p +:+ s) = (String.length p + String.length s)%nat.
Proof. induction p as [|c p IH]; simpl; [done|]. by rewrite IH. Qed.

(** A string is its first [n] bytes followed by the rest. *)
Lemma substring_split n s :
  (n <= String.length s)%nat ->
  s = String.substring 0 n s +:+ String.substring n (String.length s - n) s.
Proof.
  revert s. induction n as [|n IH]; intros s Hn.
  - rewrite Nat.sub_0_r, substring_whole. by destruct s.
  - destruct s as [|c s]; simpl in *; [lia|].
    change (String c s
            = String c (String.substring 0 n s
                        +:+ String.substring n (String.length s - n) s)).
    f_equal. apply IH. lia.
Qed.

(** [strings.HasSuffix] holds exactly of the strings that end with the
    suffix. *)
Lemma HasSuffix_spec s suffix :
  HasSuffix s suffix = true <-> exists prefix, s = prefix +:+ suffix.
Proof.
  unfold HasSuffix. rewrite andb_true_iff, Nat.leb_le, String.eqb_eq. split.
  - intros [Hl E].
    exists (String.substring 0 (String.length s - String.length suffix) s).
    pose proof (substring_split (String.length s - String.length suffix) s) as D.
    replace (String.length s - (String.length s - String.length suffix))%nat
      with (String.length suffix) in D by lia.
    rewrite E in D. apply D. lia.
  - intros [prefix ->]. rewrite length_app_string. split; [lia|].
    replace (String.length prefix + String.length suffix - String.length suffix)%nat
      with (String.length prefix) by lia.
    by rewrite substring_skip, substring_whole.
Qed.

Variable ErrClosedResponseBody : string.

(** X11. A failed read prints nothing exactly when its error is not [io.EOF] and
    its message ends with [ErrClosedResponseBody]; the loop then stops
    without a line on the terminal. *)
Theorem silent_iff_closed_response_body err rest :
  stdout (RecvEvents ErrClosedResponseBody (Failed err :: rest)) = []
  <-> exists prefix, err = errors_New (prefix +:+ ErrClosedResponseBody).
Proof.
  simpl. destruct err as [|text]; simpl.
  - split; [done|]. by intros [prefix ?].
  - destruct (HasSuffix text ErrClosedResponseBody) eqn:E; simpl.
    + apply HasSuffix_spec in E as [prefix ->]. split; [|done]. by exists prefix.
    + split; [done|]. intros [prefix [= ->]].
      assert (HasSuffix (prefix +:+ ErrClosedResponseBody) ErrClosedResponseBody = true)
        by (apply HasSuffix_spec; by exists prefix).
      congruence.
Qed.

End Silent.

(** ** More on the correlator *)

Section Correlator_more.

Variable PublicAddressToString : option TcpAddress -> string.

Local Abbreviation dispatch := (dispatch PublicAddressToString).
Local Abbreviation loop := (loop PublicAddressToString).
Local Abbreviation ProcessEvents := (ProcessEvents PublicAddressToString).
Local Abbreviation identity := (identity PublicAddressToString).
Local Abbreviation opens := (opens PublicAddressToString).
Local Abbreviation assembled_from := (assembled_from PublicAddressToString).
Local Abbreviation completed_from := (completed_from PublicAddressToString).

Lemma dispatch_well_formed st event :
  ill_formed event = false -> is_Some (dispatch st event).
Proof.
  intros W. destruct (GetEvent (GetHttp event)) as [ev|] eqn:H.
  - destruct (ill_formed_identity PublicAddressToString event ev H W) as [id I].
    destruct ev as [ri|rsi|re].
    + rewrite (dispatch_RequestInit _ _ _ _ _ H I). eauto.
    + rewrite (dispatch_ResponseInit _ _ _ _ _ H I). destruct (st !! id); eauto.
    + rewrite (dispatch_ResponseEnd _ _ _ _ _ H I). destruct (st !! id); eauto.
  - rewrite (dispatch_no_payload _ _ _ H). eauto.
Qed.

Lemma dispatch_Some_well_formed st event out :
  dispatch st event = Some out -> ill_formed event = false.
Proof.
  intros D. destruct (ill_formed event) eqn:E; [|done].
  by rewrite (dispatch_ill_formed _ _ _ E) in D.
Qed.

Lemma dispatch_None_ill_formed st event :
  dispatch st event = None -> ill_formed event = true.
Proof.
  intros D. destruct (ill_formed event) eqn:E; [done|].
  destruct (dispatch_well_formed st event E) as [out ?]. congruence.
Qed.

(** *** Where the loop stops *)

(** X12. The loop handles the events before the first cancellation and before
    the first event whose payload has no StreamId, and nothing after: the
    map, the records and the warnings are those of the run over these events
    alone. It ends waiting when all cases are handled, returned at a
    cancellation, and with a panic at an event without StreamId. *)
Theorem loop_stops_at_first_done_or_panic st cases :
  take (length (consumed cases)) cases = case_event <$> consumed cases
  /\ outstandingRequests (loop st cases)
     = outstandingRequests (loop st (case_event <$> consumed cases))
  /\ requestCh (loop st cases) = requestCh (loop st (case_event <$> consumed cases))
  /\ warnings (loop st cases) = warnings (loop st (case_event <$> consumed cases))
  /\ state (loop st (case_event <$> consumed cases)) = Waiting
  /\ state (loop st cases)
     = match drop (length (consumed cases)) cases with
       | [] => Waiting
       | case_done :: _ => Returned
       | case_event _ :: _ => Panicked
       end.
Proof.
  revert st. induction cases as [|[|event] cases IH]; intros st; [done..|].
  simpl consumed.
  destruct (dispatch st event) as [[[st' sent] logged]|] eqn:D.
  - rewrite (dispatch_Some_well_formed _ _ _ D). simpl length. simpl take. simpl drop.
    rewrite fmap_cons, !(loop_event _ _ _ _ _ _ _ D). simpl.
    destruct (IH st') as (-> & -> & -> & -> & -> & ->). done.
  - by rewrite (dispatch_None_ill_formed _ _ D), (loop_panic _ _ _ _ D).
Qed.

(** *** Events without a payload *)

(** X13. A nil event, or an event without an HTTP payload, changes nothing: the
    run is the same when these events are taken out of the cases. *)
Theorem events_without_payload_are_skipped st cases :
  loop st (filter (fun c => has_payload c = true) cases) = loop st cases.
Proof.
  revert st. induction cases as [|[|event] cases IH]; intros st; [done..|].
  destruct (GetEvent (GetHttp event)) as [ev|] eqn:H.
  - rewrite filter_cons_True by (simpl; by rewrite H).
    destruct (dispatch st event) as [[[st' sent] logged]|] eqn:D.
    + by rewrite !(loop_event _ _ _ _ _ _ _ D), IH.
    + by rewrite !(loop_panic _ _ _ _ D).
  - rewrite filter_cons_False by (simpl; by rewrite H).
    rewrite (loop_event _ _ _ _ _ _ _ (dispatch_no_payload _ _ _ H)), IH.
    simpl. by destruct (loop st cases).
Qed.

(** *** The live set *)

Lemma loop_opened cases st seen :
  (forall id, is_Some (st !! id) <-> existsb (opens id) seen = true) ->
  forall id,
    is_Some (outstandingRequests (loop st cases) !! id)
    <-> existsb (opens id) (consumed cases) = true
        \/ existsb (opens id) seen = true.
Proof.
  revert st seen. induction cases as [|[|event] cases IH]; intros st seen T id.
  - simpl. rewrite T. intuition congruence.
  - simpl. rewrite T. intuition congruence.
  - simpl consumed.
    destruct (dispatch st event) as [[[st' sent] logged]|] eqn:D.
    + rewrite (dispatch_Some_well_formed _ _ _ D), (loop_event _ _ _ _ _ _ _ D).
      simpl outstandingRequests.
      rewrite (IH st' (event :: seen)
                 (dispatch_opened _ _ _ _ _ _ _ T D) id).
      simpl. rewrite !orb_true_iff. tauto.
    + rewrite (dispatch_None_ill_formed _ _ D), (loop_panic _ _ _ _ D).
      simpl. rewrite T. intuition congruence.
Qed.

(** X14. The identities in the map are exactly those of the RequestInit events
    handled so far: an identity enters the map at its first RequestInit and
    never leaves it. *)
Theorem live_set_is_all_opened cases id :
  is_Some (outstandingRequests (ProcessEvents cases) !! id)
  <-> existsb (opens id) (consumed cases) = true.
Proof.
  unfold ProcessEvents.
  rewrite (loop_opened cases ∅ []).
  - simpl. intuition congruence.
  - intros k. rewrite lookup_empty. simpl. split; [by intros []|done].
Qed.

Lemma dispatch_grows st event st' sent logged :
  dispatch st event = Some (st', sent, logged) ->
  dom st ⊆ dom st'
  /\ size st' <= size st + (if is_RequestInit event then 1 else 0).
Proof.
  intros D. unfold is_RequestInit.
  destruct (GetEvent (GetHttp event)) as [ev|] eqn:H.
  2:{ rewrite (dispatch_no_payload _ _ _ H) in D. simplify_eq. split; [done|lia]. }
  destruct (identity event) as [id|] eqn:I.
  2:{ by rewrite (identity_None_dispatch _ _ _ _ H I) in D. }
  destruct ev as [ri|rsi|re].
  - rewrite (dispatch_RequestInit _ _ _ _ _ H I) in D. simplify_eq.
    split; [apply dom_insert_subseteq|].
    rewrite map_size_insert. destruct (st !! id); simpl; lia.
  - rewrite (dispatch_ResponseInit _ _ _ _ _ H I) in D.
    destruct (st !! id) as [req|] eqn:Hst; simplify_eq; [|split; [done|lia]].
    split; [apply dom_insert_subseteq|].
    rewrite map_size_insert_Some by eauto. lia.
  - rewrite (dispatch_ResponseEnd _ _ _ _ _ H I) in D.
    destruct (st !! id); simplify_eq; (split; [done|lia]).
Qed.

(** X15. The map only grows, and by at most one entry for each RequestInit
    handled: no event, and no cancellation, takes an identity out of it. *)
Theorem live_set_only_grows st cases :
  dom st ⊆ dom (outstandingRequests (loop st cases))
  /\ size (outstandingRequests (loop st cases))
     <= size st + length (filter (fun e => is_RequestInit e = true) (consumed cases)).
Proof.
  revert st. induction cases as [|[|event] cases IH]; intros st;
    [simpl; split; [done|lia]..|].
  simpl consumed.
  destruct (dispatch st event) as [[[st' sent] logged]|] eqn:D.
  - rewrite (dispatch_Some_well_formed _ _ _ D), (loop_event _ _ _ _ _ _ _ D).
    simpl outstandingRequests.
    destruct (dispatch_grows _ _ _ _ _ D) as [Hd Hs].
    destruct (IH st') as [Hd' Hs']. split; [by transitivity (dom st')|].
    destruct (is_RequestInit event) eqn:R.
    + rewrite filter_cons_True by done. simpl. lia.
    + rewrite filter_cons_False by congruence. lia.
  - rewrite (dispatch_None_ill_formed _ _ D), (loop_panic _ _ _ _ D).
    simpl. split; [done|lia].
Qed.

(** *** ResponseEnd events *)

(** X16. Every ResponseEnd handled gives exactly one record or exactly one
    warning of an unknown stream: none is lost, and none gives two. *)
Theorem every_ResponseEnd_is_answered st cases :
  (length (requestCh (loop st cases))
   + length (filter (fun w => unknown_ResponseEnd w = true) (warnings (loop st cases))))%nat
  = length (filter (fun e => is_ResponseEnd e = true) (consumed cases)).
Proof.
  revert st. induction cases as [|[|event] cases IH]; intros st; [done..|].
  simpl consumed.
  destruct (dispatch st event) as [[[st' sent] logged]|] eqn:D.
  2:{ by rewrite (dispatch_None_ill_formed _ _ D), (loop_panic _ _ _ _ D). }
  rewrite (dispatch_Some_well_formed _ _ _ D), (loop_event _ _ _ _ _ _ _ D).
  simpl requestCh. simpl warnings.
  rewrite filter_app, !length_app. specialize (IH st').
  destruct (GetEvent (GetHttp event)) as [ev|] eqn:H.
  2:{ rewrite (dispatch_no_payload _ _ _ H) in D. simplify_eq.
      rewrite filter_cons_False by (unfold is_ResponseEnd; by rewrite H).
      simpl. lia. }
  destruct (identity event) as [id|] eqn:I.
  2:{ by rewrite (identity_None_dispatch _ _ _ _ H I) in D. }
  destruct ev as [ri|rsi|re].
  - rewrite (dispatch_RequestInit _ _ _ _ _ H I) in D. simplify_eq.
    rewrite filter_cons_False by (unfold is_ResponseEnd; by rewrite H).
    simpl. lia.
  - rewrite (dispatch_ResponseInit _ _ _ _ _ H I) in D.
    rewrite filter_cons_False by (unfold is_ResponseEnd; by rewrite H).
    destruct (st !! id); simplify_eq; simpl; lia.
  - rewrite (dispatch_ResponseEnd _ _ _ _ _ H I) in D.
    rewrite filter_cons_True by (unfold is_ResponseEnd; by rewrite H).
    destruct (st !! id); simplify_eq; simpl; lia.
Qed.

(** *** Two ResponseInit events *)

(** X17. When two ResponseInit events of an open identity arrive before its
    ResponseEnd, the record sent holds the payload of the second one; the
    rest of the record is as it was stored. *)
Theorem latest_ResponseInit_wins st e1 e2 e3 rsi1 rsi2 re id req :
  GetEvent (GetHttp e1) = Some (TapEvent_Http_ResponseInit_ rsi1) ->
  GetEvent (GetHttp e2) = Some (TapEvent_Http_ResponseInit_ rsi2) ->
  GetEvent (GetHttp e3) = Some (TapEvent_Http_ResponseEnd_ re) ->
  identity e1 = Some id -> identity e2 = Some id -> identity e3 = Some id ->
  st !! id = Some req ->
  requestCh (loop st [case_event e1; case_event e2; case_event e3])
  = [{| Event := Event req; ReqInit := ReqInit req; RspInit := rsi2;
        RspEnd := re; TimestampMs := TimestampMs req |}]
  /\ warnings (loop st [case_event e1; case_event e2; case_event e3]) = [].
Proof.
  intros H1 H2 H3 I1 I2 I3 Hst.
  pose proof (dispatch_ResponseInit _ st _ _ _ H1 I1) as D1. rewrite Hst in D1.
  rewrite (loop_event _ _ _ _ _ _ _ D1).
  pose proof (dispatch_ResponseInit _ (<[id := set_RspInit req rsi1]> st) _ _ _ H2 I2)
    as D2.
  rewrite lookup_insert_eq in D2.
  rewrite (loop_event _ _ _ _ _ _ _ D2), insert_insert_eq.
  pose proof (dispatch_ResponseEnd _
                (<[id := set_RspInit (set_RspInit req rsi1) rsi2]> st) _ _ _ H3 I3)
    as D3.
  rewrite lookup_insert_eq in D3.
  by rewrite (loop_event _ _ _ _ _ _ _ D3).
Qed.

(** *** Where the fields of a record come from *)

Lemma dispatch_assembled all st event st' sent logged :
  event ∈ all ->
  (forall id r, st !! id = Some r -> assembled_from all id r) ->
  dispatch st event = Some (st', sent, logged) ->
  (forall id r, st' !! id = Some r -> assembled_from all id r)
  /\ Forall (completed_from all) sent.
Proof.
  intros Hin Inv D.
  destruct (GetEvent (GetHttp event)) as [ev|] eqn:H.
  2:{ rewrite (dispatch_no_payload _ _ _ H) in D. by simplify_eq. }
  destruct (identity event) as [id|] eqn:I.
  2:{ by rewrite (identity_None_dispatch _ _ _ _ H I) in D. }
  destruct ev as [ri|rsi|re].
  - rewrite (dispatch_RequestInit _ _ _ _ _ H I) in D. simplify_eq.
    split; [|done]. intros k r.
    destruct (decide (id = k)) as [->|Hne].
    + rewrite lookup_insert_eq. intros [= <-].
      repeat split; simpl; auto.
    + rewrite lookup_insert_ne by done. apply Inv.
  - rewrite (dispatch_ResponseInit _ _ _ _ _ H I) in D.
    destruct (st !! id) as [req|] eqn:Hst; simplify_eq; [|done].
    split; [|done]. intros k r.
    destruct (decide (id = k)) as [->|Hne].
    + rewrite lookup_insert_eq. intros [= <-].
      destruct (Inv _ _ Hst) as (He & Hr & Hi & _ & Ht).
      repeat split; simpl; auto. right. by exists event.
    + rewrite lookup_insert_ne by done. apply Inv.
  - rewrite (dispatch_ResponseEnd _ _ _ _ _ H I) in D.
    destruct (st !! id) as [req|] eqn:Hst; simplify_eq; [|done].
    split; [done|]. constructor; [|done].
    exists id. split; [exact (Inv _ _ Hst)|]. by exists event.
Qed.

Lemma loop_assembled all cases st :
  (forall ev, ev ∈ consumed cases -> ev ∈ all) ->
  (forall id r, st !! id = Some r -> assembled_from all id r) ->
  Forall (completed_from all) (requestCh (loop st cases)).
Proof.
  revert st. induction cases as [|[|event] cases IH]; intros st Hall Inv;
    [by constructor..|].
  simpl consumed in Hall.
  destruct (dispatch st event) as [[[st' sent] logged]|] eqn:D.
  - rewrite (dispatch_Some_well_formed _ _ _ D) in Hall.
    rewrite (loop_event _ _ _ _ _ _ _ D). simpl.
    destruct (dispatch_assembled all _ _ _ _ _ (Hall _ (list_elem_of_here _ _)) Inv D)
      as [Inv' Hs].
    apply Forall_app. split; [done|].
    apply IH; [|done]. intros ev Hev. apply Hall. by right.
  - rewrite (loop_panic _ _ _ _ D). by constructor.
Qed.

(** X18. Every record on the output queue is put together from events the loop
    has handled, all of one identity: its [Event] is a RequestInit with the
    payload [ReqInit], its [RspInit] is nil or the payload of a ResponseInit,
    its [RspEnd] is the payload of a ResponseEnd; and its [TimestampMs] is
    zero. No field comes from an event of another identity, whatever the
    number of identities and their interleaving. *)
Theorem records_are_assembled_from_one_identity cases :
  Forall (completed_from (consumed cases)) (requestCh (ProcessEvents cases)).
Proof.
  apply loop_assembled; [done|]. intros id r. by rewrite lookup_empty.
Qed.

End Correlator_more.

(** ** The table *)

Section Table_properties.

Variable PublicAddressToString : option TcpAddress -> string.
Variable ptypes_Duration : option Duration -> option Z.
Variable Duration_String : Z -> string.
Variable Registered_String : option TapEvent_Http_RequestInit -> string.
Variable format_seconds : N -> string.

Local Abbreviation fromPodTo := (fromPodTo PublicAddressToString).
Local Abbreviation cells :=
  (cells PublicAddressToString ptypes_Duration Duration_String
         Registered_String format_seconds).
Local Abbreviation processTapEvents :=
  (processTapEvents PublicAddressToString ptypes_Duration Duration_String
                    Registered_String format_seconds).
Local Abbreviation loop := (loop PublicAddressToString).
Local Abbreviation ProcessEvents := (ProcessEvents PublicAddressToString).
Local Abbreviation identity := (identity PublicAddressToString).
Local Abbreviation colon := ":"%char.

(** The name shown for an endpoint: its pod label, or its address without
    the port when the label is missing or empty. *)
Lemma fromPodTo_names req e sm dm :
  Event req = Some e ->
  SourceMeta e = Some sm ->
  DestinationMeta e = Some dm ->
  exists shost dhost,
    stripPort (PublicAddressToString (Source e)) = Some shost
    /\ stripPort (PublicAddressToString (Destination e)) = Some dhost
    /\ fromPodTo req
       = Some match ProxyDirection e with
              | INBOUND =>
                  (if decide (pod_label sm <> "") then pod_label sm else shost,
                   if decide (pod_label dm <> "") then pod_label dm else dhost, "")
              | OUTBOUND =>
                  ("", if decide (pod_label sm <> "") then pod_label sm else shost,
                   if decide (pod_label dm <> "") then pod_label dm else dhost)
              | UNKNOWN => ("", "", "")
              end.
Proof.
  intros He Hs Hd.
  destruct (stripPort_host (PublicAddressToString (Source e)))
    as (shost & Es & _).
  destruct (stripPort_host (PublicAddressToString (Destination e)))
    as (dhost & Ed & _).
  exists shost, dhost. split; [done|]. split; [done|].
  unfold fromPodTo. rewrite He. simpl. rewrite Es, Hs. simpl. rewrite Ed, Hd. done.
Qed.

Lemma fromPodTo_without_metadata req :
  Event req = None
  \/ (exists e, Event req = Some e
         /\ (SourceMeta e = None \/ DestinationMeta e = None)) ->
  fromPodTo req = None.
Proof.
  intros [He|(e & He & Hm)]; unfold fromPodTo; rewrite He; simpl.
  - destruct (stripPort_host (PublicAddressToString None)) as (host & -> & _).
    reflexivity.
  - destruct (stripPort_host (PublicAddressToString (Source e))) as (shost & -> & _).
    simpl. destruct (SourceMeta e) as [sm|]; [|done]. simpl.
    destruct (stripPort_host (PublicAddressToString (Destination e)))
      as (dhost & -> & _).
    simpl. destruct Hm as [?|Hd]; [done|by rewrite Hd].
Qed.

(** X3. [fromPodTo] fails, with a nil pointer dereference, exactly on the
    records whose event is nil or lacks the metadata of one endpoint. *)
Theorem fromPodTo_panics_without_metadata req :
  fromPodTo req = None
  <-> Event req = None
      \/ exists e, Event req = Some e
           /\ (SourceMeta e = None \/ DestinationMeta e = None).
Proof.
  split; [|apply fromPodTo_without_metadata].
  intros F.
  destruct (Event req) as [e|] eqn:He; [|by left]. right. exists e. split; [done|].
  destruct (SourceMeta e) as [sm|] eqn:Hs; [|by left].
  destruct (DestinationMeta e) as [dm|] eqn:Hd; [|by right].
  destruct (fromPodTo_names req e sm dm He Hs Hd) as (? & ? & _ & _ & E).
  congruence.
Qed.

(** X4. A row never has both a FROM and a TO: for an inbound event TO is empty,
    for an outbound event FROM is empty, and for an event of unknown
    direction FROM, POD and TO are all empty. *)
Theorem fromPodTo_from_or_to_is_empty req from pod to :
  fromPodTo req = Some (from, pod, to) ->
  (from = "" \/ to = "")
  /\ forall e, Event req = Some e ->
       match ProxyDirection e with
       | INBOUND => to = ""
       | OUTBOUND => from = ""
       | UNKNOWN => from = "" /\ pod = "" /\ to = ""
       end.
Proof.
  intros F.
  destruct (Event req) as [e|] eqn:He.
  2:{ rewrite fromPodTo_without_metadata in F by auto. done. }
  destruct (SourceMeta e) as [sm|] eqn:Hs.
  2:{ rewrite fromPodTo_without_metadata in F; [done|].
      right. exists e. auto. }
  destruct (DestinationMeta e) as [dm|] eqn:Hd.
  2:{ rewrite fromPodTo_without_metadata in F; [done|].
      right. exists e. auto. }
  destruct (fromPodTo_names req e sm dm He Hs Hd) as (shost & dhost & _ & _ & E).
  rewrite E in F.
  split.
  - destruct (ProxyDirection e); simplify_eq; auto.
  - intros e' [= <-]. destruct (ProxyDirection e); simplify_eq; auto.
Qed.

(** X5. The POD column is the tapped endpoint, the source of an outbound event
    and the destination of an inbound one: its pod label when that is not
    empty, and otherwise its address up to the first colon, so without the
    port. *)
Theorem fromPodTo_pod_is_label_or_host req e sm dm :
  Event req = Some e ->
  SourceMeta e = Some sm ->
  DestinationMeta e = Some dm ->
  exists from pod to,
    fromPodTo req = Some (from, pod, to)
    /\ (ProxyDirection e = OUTBOUND ->
        (pod_label sm <> "" /\ pod = pod_label sm)
        \/ (pod_label sm = ""
            /\ stripPort (PublicAddressToString (Source e)) = Some pod
            /\ ~ In colon (String.list_ascii_of_string pod)))
    /\ (ProxyDirection e = INBOUND ->
        (pod_label dm <> "" /\ pod = pod_label dm)
        \/ (pod_label dm = ""
            /\ stripPort (PublicAddressToString (Destination e)) = Some pod
            /\ ~ In colon (String.list_ascii_of_string pod))).
Proof.
  intros He Hs Hd.
  destruct (fromPodTo_names req e sm dm He Hs Hd) as (shost & dhost & Es & Ed & ->).
  destruct (stripPort_host (PublicAddressToString (Source e)))
    as (shost' & Es' & Hns & _).
  destruct (stripPort_host (PublicAddressToString (Destination e)))
    as (dhost' & Ed' & Hnd & _).
  simplify_eq.
  destruct (ProxyDirection e); do 3 eexists; (split; [reflexivity|]);
    (split; [intros [=]|intros [=]]).
  - destruct (decide (pod_label dm <> "")) as [?|Hl]; [by left|].
    right. split; [by destruct (decide (pod_label dm = ""))|done].
  - destruct (decide (pod_label sm <> "")) as [?|Hl]; [by left|].
    right. split; [by destruct (decide (pod_label sm = ""))|done].
Qed.

(** *** The loop of [processTapEvents] *)

Lemma processTapEvents_request log req delta rest :
  processTapEvents log (recv_request req delta :: rest)
  = match cells (set_TimestampMs req (uint64_of_int64 delta)) with
    | None =>
        {| events := log ++ [set_TimestampMs req (uint64_of_int64 delta)];
           queued := []; ended := Panicked |}
    | Some cs =>
        let r := processTapEvents
                   (log ++ [set_TimestampMs req (uint64_of_int64 delta)]) rest in
        {| events := events r;
           queued := (length (log ++ [set_TimestampMs req (uint64_of_int64 delta)]), cs)
                     :: queued r;
           ended := ended r |}
    end.
Proof. reflexivity. Qed.

(** The loop only adds to the end of the log. *)
Lemma processTapEvents_extends log cases :
  exists added, events (processTapEvents log cases) = log ++ added.
Proof.
  revert log. induction cases as [|[|req delta] cases IH]; intros log.
  - exists []. simpl. by rewrite app_nil_r.
  - exists []. simpl. by rewrite app_nil_r.
  - rewrite processTapEvents_request.
    destruct (cells _) as [cs|].
    + destruct (IH (log ++ [set_TimestampMs req (uint64_of_int64 delta)]))
        as (added & E).
      exists (set_TimestampMs req (uint64_of_int64 delta) :: added). simpl.
      by rewrite E, <- app_assoc.
    + by exists [set_TimestampMs req (uint64_of_int64 delta)].
Qed.

(** X6. The log holds, after what it held before, the records received, in the
    order of arrival and changed in [TimestampMs] only; each of them has a
    row queued, but for the one at which the loop panics. *)
Theorem log_holds_the_records_received log cases :
  exists added,
    events (processTapEvents log cases) = log ++ added
    /\ Forall2 (fun stored c =>
                  exists req delta,
                    c = recv_request req delta
                    /\ stored = set_TimestampMs req (uint64_of_int64 delta))
               added (take (length added) cases)
    /\ length added
       = (length (queued (processTapEvents log cases))
          + match ended (processTapEvents log cases) with Panicked => 1 | _ => 0 end)%nat.
Proof.
  revert log. induction cases as [|[|req delta] cases IH]; intros log.
  - exists []. simpl. rewrite app_nil_r. by repeat split.
  - exists []. simpl. rewrite app_nil_r. by repeat split.
  - rewrite processTapEvents_request.
    destruct (cells _) as [cs|].
    + destruct (IH (log ++ [set_TimestampMs req (uint64_of_int64 delta)]))
        as (added & E & F & L).
      exists (set_TimestampMs req (uint64_of_int64 delta) :: added). simpl.
      rewrite E, <- app_assoc. split; [done|]. split; [|lia].
      constructor; [eauto|done].
    + exists [set_TimestampMs req (uint64_of_int64 delta)]. simpl.
      split; [done|]. split; [|done]. constructor; [eauto|constructor].
Qed.

(** X7. The rows are numbered from the length of the log on, one by one, so the
    header row 0 is never written; and the record at [el.events[row-1]], the
    one [selectionChanged] shows for a row, is the record the cells of that
    row were made from. *)
Theorem rows_match_the_log log cases i row cs :
  queued (processTapEvents log cases) !! i = Some (row, cs) ->
  row = S (length log + i)
  /\ exists req,
       events (processTapEvents log cases) !! (row - 1)%nat = Some req
       /\ cells req = Some cs.
Proof.
  revert log i. induction cases as [|[|req delta] cases IH]; intros log i; [done..|].
  rewrite processTapEvents_request.
  destruct (cells _) as [cs'|] eqn:C; [|done]. simpl.
  destruct i as [|i]; simpl.
  - intros [= <- <-]. rewrite length_app. simpl. split; [lia|].
    exists (set_TimestampMs req (uint64_of_int64 delta)). split; [|done].
    destruct (processTapEvents_extends
                (log ++ [set_TimestampMs req (uint64_of_int64 delta)]) cases)
      as (added & ->).
    rewrite <- !app_assoc. simpl.
    replace (length log + 1 - 1)%nat with (length log + 0)%nat by lia.
    by rewrite lookup_app_r, Nat.add_comm, Nat.add_sub by lia.
  - intros Hq. destruct (IH _ _ Hq) as [-> Hr].
    rewrite length_app in *. simpl in *. split; [lia|done].
Qed.

(** X8. With a clock that does not go back, the log is in the order of its
    timestamps. *)
Theorem log_is_in_time_order cases :
  StronglySorted Z.le (elapsed cases) ->
  Forall (fun delta => (0 <= delta < 2 ^ 63)%Z) (elapsed cases) ->
  StronglySorted N.le (TimestampMs <$> events (processTapEvents [] cases)).
Proof.
  assert (forall cases log,
             StronglySorted N.le (TimestampMs <$> log) ->
             (forall t delta, t ∈ TimestampMs <$> log -> delta ∈ elapsed cases ->
                              (t <= Z.to_N delta)%N) ->
             StronglySorted Z.le (elapsed cases) ->
             Forall (fun delta => (0 <= delta < 2 ^ 63)%Z) (elapsed cases) ->
             StronglySorted N.le (TimestampMs <$> events (processTapEvents log cases)))
    as Hgen.
  { clear cases. induction cases as [|[|req delta] cases IH]; intros log Hs Hb Hd Hr;
      [done..|].
    simpl elapsed in *.
    apply StronglySorted_cons in Hd as [Hle Hd].
    apply Forall_cons in Hr as [Hr0 Hr].
    assert (uint64_of_int64 delta = Z.to_N delta) as Eu.
    { unfold uint64_of_int64. rewrite Z.mod_small; [done|lia]. }
    assert (StronglySorted N.le
              (TimestampMs <$> log ++ [set_TimestampMs req (uint64_of_int64 delta)]))
      as Hs'.
    { rewrite fmap_app. apply StronglySorted_app_2; [|done|repeat constructor].
      intros t1 t2 H1 H2. apply list_elem_of_singleton in H2 as ->. simpl.
      rewrite Eu. apply Hb; [done|by left]. }
    rewrite processTapEvents_request. destruct (cells _) as [cs|]; [|done].
    simpl. apply IH; [done| |done..].
    intros t d Ht Hin. rewrite fmap_app in Ht. apply elem_of_app in Ht as [Ht|Ht].
    - apply Hb; [done|by right].
    - apply list_elem_of_singleton in Ht as ->. simpl. rewrite Eu.
      rewrite Forall_forall in Hle. specialize (Hle _ Hin). lia. }
  intros Hd Hr. apply Hgen; [constructor| |done..].
  intros t d Ht. by apply elem_of_nil in Ht.
Qed.

(** *** The correlator and the table together *)

Lemma consumed_in_cases cases ev :
  ev ∈ consumed cases -> case_event ev ∈ cases.
Proof.
  induction cases as [|[|event] cases IH]; simpl; [by intros ?%elem_of_nil..|].
  destruct (ill_formed event); [by intros ?%elem_of_nil|].
  intros [->|?]%elem_of_cons; [by left|right; auto].
Qed.

Lemma processTapEvents_no_panic log cases :
  Forall (fun c => match c with
                   | recv_request req _ => fromPodTo req <> None
                   | recv_done => True
                   end) cases ->
  ended (processTapEvents log cases) <> Panicked.
Proof.
  revert log. induction cases as [|[|req delta] cases IH]; intros log Hc; [done..|].
  apply Forall_cons in Hc as [Hr Hc].
  rewrite processTapEvents_request. unfold cells.
  change (fromPodTo (set_TimestampMs req (uint64_of_int64 delta)))
    with (fromPodTo req).
  destruct (fromPodTo req) as [[[from pod] to]|]; [|done].
  simpl. by apply IH.
Qed.

(** X9. When every event that reaches the correlator carries the metadata of
    both endpoints, no record the correlator sends makes the loop of
    [processTapEvents] panic, whatever the order and the times at which the
    records are received. *)
Theorem table_takes_every_record_of_the_correlator cases log arrivals :
  Forall has_metadata cases ->
  Forall (takes_from (requestCh (ProcessEvents cases))) arrivals ->
  ended (processTapEvents log arrivals) <> Panicked.
Proof.
  intros Hm Ha. apply processTapEvents_no_panic.
  eapply Forall_impl; [exact Ha|]. intros [|req delta]; [done|]. simpl. intros Hin.
  assert (Forall (completed_from PublicAddressToString (consumed cases))
                 (requestCh (ProcessEvents cases))) as Hl.
  { apply loop_assembled; [done|]. intros k r. by rewrite lookup_empty. }
  rewrite Forall_forall in Hl.
  destruct (Hl req Hin) as (id & (He & Hr & _) & _).
  apply consumed_in_cases in He.
  rewrite Forall_forall in Hm. specialize (Hm _ He).
  destruct (Event req) as [e|] eqn:Ee; [|done]. destruct Hm as [[sm Hs] [dm Hd]].
  destruct (fromPodTo_names req e sm dm Ee Hs Hd) as (? & ? & _ & _ & ->). done.
Qed.

(** X10. An exchange without a ResponseInit is drawn with the status 0: the
    record of a RequestInit followed by the ResponseEnd of its identity gets
    a row of eight cells whose STATUS cell is " 0 ". *)
Theorem exchange_without_ResponseInit_shows_status_0
    st e e3 ri re id sm dm log delta :
  GetEvent (GetHttp (Some e)) = Some (TapEvent_Http_RequestInit_ ri) ->
  GetEvent (GetHttp e3) = Some (TapEvent_Http_ResponseEnd_ re) ->
  identity (Some e) = Some id -> identity e3 = Some id ->
  SourceMeta e = Some sm -> DestinationMeta e = Some dm ->
  exists r cs,
    requestCh (loop st [case_event (Some e); case_event e3]) = [r]
    /\ queued (processTapEvents log [recv_request r delta]) = [(S (length log), cs)]
    /\ length cs = 8%nat
    /\ cs !! 6%nat = Some " 0 ".
Proof.
  intros H1 H3 I1 I3 Hs Hd.
  rewrite (loop_event _ _ _ _ _ _ _ (dispatch_RequestInit _ st _ _ _ H1 I1)).
  pose proof (dispatch_ResponseEnd _
                (<[id := {| Event := Some e; ReqInit := ri; RspInit := None;
                            RspEnd := None; TimestampMs := 0 |}]> st)
                _ _ _ H3 I3) as D3.
  rewrite lookup_insert_eq in D3.
  rewrite (loop_event _ _ _ _ _ _ _ D3).
  exists (set_RspEnd {| Event := Some e; ReqInit := ri; RspInit := None;
                        RspEnd := None; TimestampMs := 0 |} re).
  destruct (fromPodTo_names
              (set_TimestampMs
                 (set_RspEnd {| Event := Some e; ReqInit := ri; RspInit := None;
                                RspEnd := None; TimestampMs := 0 |} re)
                 (uint64_of_int64 delta)) e sm dm eq_refl Hs Hd)
    as (shost & dhost & _ & _ & E).
  destruct (ProxyDirection e); eexists; (split; [reflexivity|]);
    rewrite processTapEvents_request; unfold cells; rewrite E; simpl;
    rewrite length_app; simpl;
    (split; [do 2 f_equal; lia|]); split; reflexivity.
Qed.

End Table_properties.

(** ** The further properties on sample runs *)

Module Rows_runs.

Import Sample Rows.

Local Abbreviation table :=
  (processTapEvents show_addr nanoseconds show_ns method_name show_ms).

Example row_of_served :
  row 1500 = ["1.500"; "  "; " web-0 "; " 10.0.0.2 "; " GET "; " /foo "; " 200 "; ""].
Proof. vm_compute. reflexivity. Qed.

Lemma latest_ResponseInit_wins_witness :
  (GetEvent (GetHttp (Some ok)) = Some (TapEvent_Http_ResponseInit_ (response 1 200))
   /\ GetEvent (GetHttp (Some moved)) = Some (TapEvent_Http_ResponseInit_ (response 1 301))
   /\ GetEvent (GetHttp (Some fin)) = Some (TapEvent_Http_ResponseEnd_ (finish 1 0))
   /\ identity show_addr (Some ok) = Some (key 1)
   /\ identity show_addr (Some moved) = Some (key 1)
   /\ identity show_addr (Some fin) = Some (key 1)
   /\ ({[ key 1 := opened 1 "/foo" ]} : gmap streamID Stream) !! key 1
      = Some (opened 1 "/foo"))
  /\ requestCh (loop show_addr {[ key 1 := opened 1 "/foo" ]}
                  [case_event (Some ok); case_event (Some moved); case_event (Some fin)])
     = [{| Event := reqInit 1 "/foo"; ReqInit := request 1 "/foo";
           RspInit := response 1 301; RspEnd := finish 1 0; TimestampMs := 0 |}]
  /\ warnings (loop show_addr {[ key 1 := opened 1 "/foo" ]}
                 [case_event (Some ok); case_event (Some moved); case_event (Some fin)])
     = [].
Proof.
  split; [repeat split; vm_compute; reflexivity|].
  apply (latest_ResponseInit_wins show_addr {[ key 1 := opened 1 "/foo" ]}
           (Some ok) (Some moved) (Some fin)
           (response 1 200) (response 1 301) (finish 1 0) (key 1) (opened 1 "/foo"));
    vm_compute; reflexivity.
Defined.

Lemma fromPodTo_from_or_to_is_empty_witness :
  fromPodTo show_addr served = Some ("", "web-0", "10.0.0.2")
  /\ ("" = "" \/ "10.0.0.2" = "")
  /\ forall e, Event served = Some e ->
       match ProxyDirection e with
       | INBOUND => "10.0.0.2" = ""
       | OUTBOUND => "" = ""
       | UNKNOWN => "" = "" /\ "web-0" = "" /\ "10.0.0.2" = ""
       end.
Proof.
  split; [vm_compute; reflexivity|].
  apply (fromPodTo_from_or_to_is_empty show_addr served "" "web-0" "10.0.0.2").
  vm_compute. reflexivity.
Defined.

Lemma fromPodTo_pod_is_label_or_host_witness :
  (Event served = Some get
   /\ SourceMeta get = Some {| Labels := {[ "pod" := "web-0" ]} |}
   /\ DestinationMeta get = Some {| Labels := ∅ |})
  /\ exists from pod to,
      fromPodTo show_addr served = Some (from, pod, to)
      /\ (ProxyDirection get = OUTBOUND ->
          (pod_label {| Labels := {[ "pod" := "web-0" ]} |} <> ""
           /\ pod = pod_label {| Labels := {[ "pod" := "web-0" ]} |})
          \/ (pod_label {| Labels := {[ "pod" := "web-0" ]} |} = ""
              /\ stripPort (show_addr (Source get)) = Some pod
              /\ ~ In ":"%char (String.list_ascii_of_string pod)))
      /\ (ProxyDirection get = INBOUND ->
          (pod_label {| Labels := ∅ |} <> "" /\ pod = pod_label {| Labels := ∅ |})
          \/ (pod_label {| Labels := ∅ |} = ""
              /\ stripPort (show_addr (Destination get)) = Some pod
              /\ ~ In ":"%char (String.list_ascii_of_string pod))).
Proof.
  split; [repeat split; reflexivity|].
  apply (fromPodTo_pod_is_label_or_host show_addr served get
           {| Labels := {[ "pod" := "web-0" ]} |} {| Labels := ∅ |});
    reflexivity.
Defined.

Lemma rows_match_the_log_witness :
  queued (table [] [recv_request served 900; recv_request served 1500]) !! 1%nat
  = Some (2%nat, row 1500)
  /\ 2%nat = S (length ([] : list Stream) + 1)
  /\ exists req,
      events (table [] [recv_request served 900; recv_request served 1500])
        !! (2 - 1)%nat = Some req
      /\ cells show_addr nanoseconds show_ns method_name show_ms req = Some (row 1500).
Proof.
  split; [vm_compute; reflexivity|].
  apply (rows_match_the_log show_addr nanoseconds show_ns method_name show_ms
           [] [recv_request served 900; recv_request served 1500] 1 2 (row 1500)).
  vm_compute. reflexivity.
Defined.

Lemma log_is_in_time_order_witness :
  (StronglySorted Z.le (elapsed [recv_request served 900; recv_request served 1500])
   /\ Forall (fun delta => (0 <= delta < 2 ^ 63)%Z)
             (elapsed [recv_request served 900; recv_request served 1500]))
  /\ StronglySorted N.le
       (TimestampMs <$> events (table [] [recv_request served 900;
                                          recv_request served 1500])).
Proof.
  assert (StronglySorted Z.le (elapsed [recv_request served 900; recv_request served 1500]))
    as Hs by (repeat constructor; lia).
  assert (Forall (fun delta => (0 <= delta < 2 ^ 63)%Z)
                 (elapsed [recv_request served 900; recv_request served 1500]))
    as Hb by (repeat constructor; lia).
  split; [done|].
  apply (log_is_in_time_order show_addr nanoseconds show_ns method_name show_ms
           [recv_request served 900; recv_request served 1500] Hs Hb).
Defined.

Lemma table_takes_every_record_of_the_correlator_witness :
  (Forall has_metadata [case_event (Some get); case_event (Some ok); case_event (Some fin)]
   /\ Forall (takes_from
                (requestCh (ProcessEvents show_addr
                              [case_event (Some get); case_event (Some ok);
                               case_event (Some fin)])))
             [recv_request served 900])
  /\ ended (table [] [recv_request served 900]) <> Panicked.
Proof.
  assert (Forall has_metadata
                 [case_event (Some get); case_event (Some ok); case_event (Some fin)])
    as Hm by (repeat constructor; simpl; eauto).
  assert (Forall (takes_from
                    (requestCh (ProcessEvents show_addr
                                  [case_event (Some get); case_event (Some ok);
                                   case_event (Some fin)])))
                 [recv_request served 900])
    as Ht by (repeat constructor; vm_compute; left).
  split; [done|].
  apply (table_takes_every_record_of_the_correlator show_addr nanoseconds show_ns
           method_name show_ms
           [case_event (Some get); case_event (Some ok); case_event (Some fin)]
           [] [recv_request served 900] Hm Ht).
Defined.

Lemma exchange_without_ResponseInit_shows_status_0_witness :
  (GetEvent (GetHttp (Some get)) = Some (TapEvent_Http_RequestInit_ (request 1 "/foo"))
   /\ GetEvent (GetHttp (Some fin)) = Some (TapEvent_Http_ResponseEnd_ (finish 1 0))
   /\ identity show_addr (Some get) = Some (key 1)
   /\ identity show_addr (Some fin) = Some (key 1)
   /\ SourceMeta get = Some {| Labels := {[ "pod" := "web-0" ]} |}
   /\ DestinationMeta get = Some {| Labels := ∅ |})
  /\ exists r cs,
      requestCh (loop show_addr ∅ [case_event (Some get); case_event (Some fin)]) = [r]
      /\ queued (table [] [recv_request r 900]) = [(1%nat, cs)]
      /\ length cs = 8%nat
      /\ cs !! 6%nat = Some " 0 ".
Proof.
  split; [repeat split; vm_compute; reflexivity|].
  apply (exchange_without_ResponseInit_shows_status_0 show_addr nanoseconds show_ns
           method_name show_ms ∅ get (Some fin) (request 1 "/foo") (finish 1 0) (key 1)
           {| Labels := {[ "pod" := "web-0" ]} |} {| Labels := ∅ |} [] 900);
    vm_compute; reflexivity.
Defined.

(** An IPv6 address is cut at the first colon inside its brackets. *)
Example stripPort_IPv6 : stripPort "[2001:db8::1]:8080" = Some "[2001".
Proof. reflexivity. Qed.

End Rows_runs.
